(** * Dead Sea Scrolls reader: transliteration, definition lookup and search

    A shallow embedding of the logic of [js/interlinear.js], [js/word-modal.js]
    and [js/search.js], and the properties of it that the specification
    states.

    Conventions.  A JavaScript string is the list of its UTF-16 code units
    (each a [Z] in [0, 65536)); [length] is therefore the [.length] of the
    source.  A plain object used as a dictionary is a [gmap] where only
    lookups matter and an association list in [Object.entries] order where
    the iteration order matters; a dictionary that is read by key also
    answers to the property names of [Object.prototype].  A number of a
    document is the integer it holds, and the Number [parseInt] makes of
    a query is the nearest one the language has (the integer itself
    below 2^53).  The documents are taken to have the schema the
    specification gives them.  [js/word-modal.js] is the second script
    of the source file of [js/interlinear.js]. *)

From Stdlib Require Import ZArith List Ascii String Lia Bool.
From stdpp Require Import base option list gmap.

Open Scope Z_scope.

(** ** JavaScript strings *)

Module JS.

Abbreviation jsstring := (list Z).

(** A source literal without code units above 255. *)
Fixpoint lit (s : string) : jsstring :=
  match s with
  | EmptyString => []
  | String a r => Z.of_N (N_of_ascii a) :: lit r
  end.

(** The double quote, which the markup of [search.js] is full of. *)
Definition dq : jsstring := [34].

(** [Boolean(s)] for a string: only the empty string is falsy. *)
Definition truthy (s : jsstring) : bool :=
  match s with [] => false | _ => true end.

(** [a || b] where [a] is a string or [undefined]. *)
Definition orElse (a : option jsstring) (b : jsstring) : jsstring :=
  match a with
  | Some s => if truthy s then s else b
  | None => b
  end.

Definition isLeadSurrogate (c : Z) : bool := (0xD800 <=? c) && (c <=? 0xDBFF).
Definition isTrailSurrogate (c : Z) : bool := (0xDC00 <=? c) && (c <=? 0xDFFF).

(** [for (const ch of s)]: the string iterator yields one string per code
    point, joining a lead surrogate with the trail surrogate after it. *)
Fixpoint stringIterator (s : jsstring) : list jsstring :=
  match s with
  | [] => []
  | c :: rest =>
      match rest with
      | d :: rest' =>
          if isLeadSurrogate c && isTrailSurrogate d
          then [c; d] :: stringIterator rest'
          else [c] :: stringIterator rest
      | [] => [[c]]
      end
  end.

(** [ch.codePointAt(0)]; [None] is [undefined] (empty string). *)
Definition codePointAt0 (ch : jsstring) : option Z :=
  match ch with
  | [] => None
  | c :: rest =>
      match rest with
      | d :: _ =>
          if isLeadSurrogate c && isTrailSurrogate d
          then Some ((c - 0xD800) * 0x400 + (d - 0xDC00) + 0x10000)
          else Some c
      | [] => Some c
      end
  end.

(** [s.startsWith(p)] and [s.includes(p)], on code units. *)
Fixpoint startsWith (s p : jsstring) : bool :=
  match p, s with
  | [], _ => true
  | _ :: _, [] => false
  | x :: p', y :: s' => (x =? y) && startsWith s' p'
  end.

Fixpoint includes (s p : jsstring) : bool :=
  startsWith s p ||
  match s with
  | [] => false
  | _ :: s' => includes s' p
  end.

(** WhiteSpace and LineTerminator code units, as [String.prototype.trim]
    strips them. *)
Definition isWhiteSpace (c : Z) : bool :=
  (c =? 0x09) || (c =? 0x0A) || (c =? 0x0B) || (c =? 0x0C) || (c =? 0x0D) ||
  (c =? 0x20) || (c =? 0xA0) || (c =? 0x1680) ||
  ((0x2000 <=? c) && (c <=? 0x200A)) ||
  (c =? 0x2028) || (c =? 0x2029) || (c =? 0x202F) || (c =? 0x205F) ||
  (c =? 0x3000) || (c =? 0xFEFF).

Fixpoint trimStart (s : jsstring) : jsstring :=
  match s with
  | c :: s' => if isWhiteSpace c then trimStart s' else s
  | [] => []
  end.

Definition trimEnd (s : jsstring) : jsstring := rev (trimStart (rev s)).

Definition trim (s : jsstring) : jsstring := trimEnd (trimStart s).

(** Decimal digits of a natural number, most significant first; [fuel]
    bounds the number of digits. *)
Fixpoint digitsOf (fuel : nat) (n : Z) (acc : jsstring) : jsstring :=
  match fuel with
  | O => acc
  | S fuel' =>
      let acc' := (48 + n mod 10) :: acc in
      if n / 10 =? 0 then acc' else digitsOf fuel' (n / 10) acc'
  end.

(** The decimal string of an integer [n]: [String(n)] for the
    integers below 2^53 in size. *)
Definition numberToString (n : Z) : jsstring :=
  if n <? 0
  then 45 :: digitsOf (S (Z.to_nat (Z.log2 (- n)))) (- n) []
  else digitsOf (S (Z.to_nat (Z.log2 n))) n [].

Definition isDigit (c : Z) : bool := (48 <=? c) && (c <=? 57).

(** [/^\d+$/.test(s)]. *)
Definition allDigits (s : jsstring) : bool :=
  truthy s && forallb isDigit s.

(** The integer a string of decimal digits denotes. *)
Definition decimalValue (s : jsstring) : Z :=
  fold_left (fun acc c => acc * 10 + (c - 48)) s 0.

(** A Number that is an integer, or the one past all of them. *)
Inductive Number :=
| Finite (n : Z)
| Infinity.

#[global] Instance Number_eq_dec : EqDecision Number.
Proof. solve_decision. Defined.

(** The Number value for a natural number: the integer itself below
    2^53, else the nearest integer with a significand of 53 bits, a tie
    going to the even significand; from 2^1024 - 2^970 on, [Infinity]. *)
Definition toDouble (v : Z) : Number :=
  if v <? 2 ^ 53 then Finite v
  else
    let e := Z.log2 v - 52 in
    let m := v / 2 ^ e in
    let r := v mod 2 ^ e in
    let half := 2 ^ (e - 1) in
    let m' :=
      if r <? half then m
      else if half <? r then m + 1
      else if Z.even m then m else m + 1 in
    if m' * 2 ^ e <? 2 ^ 1024 then Finite (m' * 2 ^ e) else Infinity.

(** [parseInt(s)] on a string of decimal digits: the Number value for
    the integer they denote. *)
Definition parseInt (s : jsstring) : Number := toDouble (decimalValue s).

End JS.

Import JS.

(** ** interlinear.js: the transliteration engine *)

Module Interlinear.

(** The consonant rows of [buildTranslitTable]. *)
Definition rows : list (Z * jsstring) :=
  [ (0x1200, lit "h"); (0x1208, lit "l"); (0x1210, lit "H");
    (0x1218, lit "m"); (0x1220, lit "s'"); (0x1228, lit "r");
    (0x1230, lit "s"); (0x1238, lit "sh"); (0x1240, lit "q");
    (0x1248, lit "qw"); (0x1250, lit "b"); (0x1258, lit "bw");
    (0x1260, lit "b"); (0x1268, lit "v"); (0x1270, lit "t");
    (0x1278, lit "ch"); (0x1280, lit "kh"); (0x1288, lit "khw");
    (0x1290, lit "n"); (0x1298, lit "ny"); (0x12A0, lit "'");
    (0x12A8, lit "k"); (0x12B0, lit "kw"); (0x12B8, lit "kx");
    (0x12C0, lit "kx"); (0x12C8, lit "w"); (0x12D0, lit "`");
    (0x12D8, lit "z"); (0x12E0, lit "zh"); (0x12E8, lit "y");
    (0x12F0, lit "d"); (0x12F8, lit "dd"); (0x1300, lit "j");
    (0x1308, lit "g"); (0x1310, lit "gw"); (0x1318, lit "ggw");
    (0x1320, lit "T"); (0x1328, lit "P"); (0x1330, lit "ts");
    (0x1338, lit "ts'"); (0x1340, lit "f"); (0x1348, lit "p") ].

Definition vowels : list jsstring :=
  [lit "a"; lit "u"; lit "i"; lit "a"; lit "e"; lit ""; lit "o"].

(** One turn of the outer loop: the seven vowel orders, then the
    labialized eighth form. *)
Definition addRow (tbl : gmap Z jsstring) (row : Z * jsstring) : gmap Z jsstring :=
  let '(base, consonant) := row in
  let tbl' :=
    fold_left (fun t v => <[base + Z.of_nat v := consonant ++ nth v vowels []]> t)
              (seq 0 7) tbl in
  <[base + 7 := consonant ++ lit "wa"]> tbl'.

Definition buildTranslitTable (tbl : gmap Z jsstring) : gmap Z jsstring :=
  fold_left addRow rows tbl.

(** [TRANSLIT_BASES] after the call of [buildTranslitTable()] at load. *)
Definition TRANSLIT_BASES : gmap Z jsstring := buildTranslitTable ∅.

(** [TRANSLIT_BASES[cp]] where [cp] may be [undefined]. *)
Definition tableAt (cp : option Z) : option jsstring :=
  match cp with
  | Some k => TRANSLIT_BASES !! k
  | None => None
  end.

Definition inEthiopic (cp : option Z) : bool :=
  match cp with
  | Some k => (0x1200 <=? k) && (k <=? 0x137F)
  | None => false
  end.

(** The body of the loop of [transliterate]. *)
Definition transliterateStep (result ch : jsstring) : jsstring :=
  let cp := codePointAt0 ch in
  match tableAt cp with
  | Some syl =>
      if truthy syl then result ++ syl
      else if inEthiopic cp then result ++ lit "?"
      else result ++ ch
  | None =>
      if inEthiopic cp then result ++ lit "?"
      else result ++ ch
  end.

Definition transliterate (geezWord : jsstring) : jsstring :=
  fold_left transliterateStep (stringIterator geezWord) [].

End Interlinear.

(** ** word-modal.js: the definition stores and their lookups *)

Module WordModal.

(** A value of the language, as far as the lexicon documents hold them.
    [VObject l] is a reference to the object at address [l]. *)
Inductive Value :=
| VUndefined
| VNull
| VBool (b : bool)
| VNumber (n : Z)
| VString (s : jsstring)
| VObject (l : nat).

(** The own enumerable properties of an object. *)
Abbreviation Obj := (gmap jsstring Value).

(** A reference to an object: one of the heap, or the value that
    [Object.prototype] has under one of its keys (a built-in function,
    or the prototype itself under [__proto__]). *)
Inductive Ref :=
| At (l : nat)
| Builtin (k : jsstring).

(** The property names of [Object.prototype], which every plain object
    answers to. *)
Definition objectPrototypeKeys : list jsstring :=
  [ lit "constructor"; lit "__defineGetter__"; lit "__defineSetter__";
    lit "hasOwnProperty"; lit "__lookupGetter__"; lit "__lookupSetter__";
    lit "isPrototypeOf"; lit "propertyIsEnumerable"; lit "toString";
    lit "valueOf"; lit "__proto__"; lit "toLocaleString" ].

(** The objects of the page and the two module-level stores: [geezDefs]
    and [wordData] are [null] ([None]) or a dictionary from a Ge'ez word
    to the address of its entry. *)
Record Session := {
  heap : list Obj;
  geezDefs : option (gmap jsstring nat);
  wordData : option (gmap jsstring nat)
}.

Definition toBoolean (v : Value) : bool :=
  match v with
  | VUndefined | VNull => false
  | VBool b => b
  | VNumber n => negb (n =? 0)
  | VString s => truthy s
  | VObject _ => true
  end.

(** State passing for the functions that allocate or write. *)
Definition M (A : Type) : Type := Session -> A * Session.

Definition ret {A} (a : A) : M A := fun s => (a, s).

Definition bind {A B} (m : M A) (k : A -> M B) : M B :=
  fun s => let '(a, s') := m s in k a s'.

Local Notation "x <- m ;; k" := (bind m (fun x => k))
  (at level 100, m at next level, right associativity).
Local Notation "m ;;; k" := (bind m (fun _ => k))
  (at level 100, right associativity).

(** The properties of the object at [l]. *)
Definition objectAt (s : Session) (l : nat) : Obj := default ∅ (heap s !! l).

(** [o.k] for the object at address [l], [k] being one of the names
    the code reads off an entry ([definition], [english],
    [transliteration]), none of which is inherited. *)
Definition getProp (s : Session) (l : nat) (k : jsstring) : Value :=
  default VUndefined (objectAt s l !! k).

(** [d[k]] for a dictionary [d], a plain object: its own property, or
    the one it inherits; [None] is [undefined]. *)
Definition readKey (d : gmap jsstring nat) (k : jsstring) : option Ref :=
  match d !! k with
  | Some l => Some (At l)
  | None => if bool_decide (k ∈ objectPrototypeKeys) then Some (Builtin k) else None
  end.

(** [r.k] for one of the names the code reads off an entry: no built-in
    has them. *)
Definition propOf (s : Session) (r : Ref) (k : jsstring) : Value :=
  match r with
  | At l => getProp s l k
  | Builtin _ => VUndefined
  end.

(** The own enumerable properties of the object [r]: a built-in has
    none. *)
Definition ownProperties (s : Session) (r : Ref) : Obj :=
  match r with
  | At l => objectAt s l
  | Builtin _ => ∅
  end.

(** [{ ...o }]: a new object with the own enumerable properties of the
    object [r]. *)
Definition spread (r : Ref) : M nat :=
  fun s =>
    (length (heap s),
     {| heap := heap s ++ [ownProperties s r];
        geezDefs := geezDefs s;
        wordData := wordData s |}).

(** [o.k = v] for the object at address [l]. *)
Definition setProp (l : nat) (k : jsstring) (v : Value) : M unit :=
  fun s =>
    (tt,
     {| heap := <[l := <[k := v]> (objectAt s l)]> (heap s);
        geezDefs := geezDefs s;
        wordData := wordData s |}).

(** [lookupDefinition(geez)]: [None] is [null], [Some r] the object
    returned. *)
Definition lookupDefinition (geez : jsstring) : M (option Ref) :=
  fun s =>
    match geezDefs s with
    | None => ret None s
    | Some defs =>
        match readKey defs geez with
        | Some r => ret (Some r) s
        | None =>
            if (1 <? length geez)%nat then
              let trimmed := take (length geez - 1) geez in
              match readKey defs trimmed with
              | Some r =>
                  (def <- spread r ;;
                   setProp def (lit "hasVariant") (VBool true) ;;;
                   setProp def (lit "variantNote") (VString (lit "(variant form)")) ;;;
                   ret (Some (At def))) s
              | None => ret None s
              end
            else ret None s
        end
    end.

(** [store && store[geezWord]], then [.transliteration] of the entry:
    [None] when the guard fails. *)
Definition storedTranslit (s : Session) (store : option (gmap jsstring nat))
    (geezWord : jsstring) : option Value :=
  match store with
  | None => None
  | Some d =>
      match readKey d geezWord with
      | Some r => Some (propOf s r (lit "transliteration"))
      | None => None
      end
  end.

(** [getWordTranslit(geezWord)] of interlinear.js, which reads the stores
    of this file. *)
Definition getWordTranslit (s : Session) (geezWord : jsstring) : Value :=
  let fromWordData :=
    match storedTranslit s (wordData s) geezWord with
    | Some translit =>
        if toBoolean translit then translit
        else VString (Interlinear.transliterate geezWord)
    | None => VString (Interlinear.transliterate geezWord)
    end in
  match storedTranslit s (geezDefs s) geezWord with
  | Some translit => if toBoolean translit then translit else fromWordData
  | None => fromWordData
  end.

End WordModal.

(** ** search.js: the search index and the query engine *)

Module Search.

(** An entry of words.json.  A field the document leaves out is [None]. *)
Record LexiconEntry := {
  definition : option jsstring;
  english_definition : option jsstring;
  transliteration : option jsstring;
  root : option jsstring;
  gematria : option Z;
  frequency : option Z;
  first_occurrence : option jsstring
}.

(** A verse of search_index.json ([verseWords] is its [words]). *)
Record VerseRecord := {
  ref : jsstring;
  english : jsstring;
  verseWords : list jsstring
}.

(** The lexicon object, as [Object.entries] lists it. *)
Abbreviation Lexicon := (list (jsstring * LexiconEntry)).

(** The document search_index.json. *)
Record IndexData := {
  data_verses : list VerseRecord;
  verse_count : Z;
  word_count : Z;
  chapter_count : Z
}.

Record SearchIndex := {
  verses : list VerseRecord;
  words : Lexicon;
  stats : Z * Z * Z
}.

(** What a run of the engine finds around it: the page it runs on, the
    outcome of the two requests ([None]: the request or the parse of its
    body is rejected) and the [wordData] of word-modal.js when that is
    loaded. *)
Record Env := {
  isChapterPage : bool;
  search_index_json : option IndexData;
  wordData : option Lexicon;
  words_json : option Lexicon
}.

(** The state of the module: [searchIndex], and a record of the requests
    sent and of the calls of [console.error]. *)
Record Session := {
  searchIndex : option SearchIndex;
  requests : list jsstring;
  errorsLogged : nat
}.

Inductive Completion (A : Type) :=
| Returned (a : A)
| Thrown.
Arguments Returned {A} a.
Arguments Thrown {A}.

(** State passing with exceptions. *)
Definition M (A : Type) : Type := Session -> Completion A * Session.

Definition ret {A} (a : A) : M A := fun s => (Returned a, s).

Definition throw {A} : M A := fun s => (Thrown, s).

Definition bind {A B} (m : M A) (k : A -> M B) : M B :=
  fun s =>
    match m s with
    | (Returned a, s') => k a s'
    | (Thrown, s') => (Thrown, s')
    end.

Definition tryCatch {A} (body : M A) (handler : M A) : M A :=
  fun s =>
    match body s with
    | (Returned a, s') => (Returned a, s')
    | (Thrown, s') => handler s'
    end.

Local Notation "x <- m ;; k" := (bind m (fun x => k))
  (at level 100, m at next level, right associativity).
Local Notation "m ;;; k" := (bind m (fun _ => k))
  (at level 100, right associativity).

Definition getIndex : M (option SearchIndex) :=
  fun s => (Returned (searchIndex s), s).

Definition setIndex (i : SearchIndex) : M unit :=
  fun s => (Returned tt,
            {| searchIndex := Some i; requests := requests s;
               errorsLogged := errorsLogged s |}).

Definition consoleError : M unit :=
  fun s => (Returned tt,
            {| searchIndex := searchIndex s; requests := requests s;
               errorsLogged := S (errorsLogged s) |}).

(** [await fetch(url)] followed by [await resp.json()]. *)
Definition fetchJson {A} (url : jsstring) (outcome : option A) : M A :=
  fun s =>
    let s' := {| searchIndex := searchIndex s; requests := requests s ++ [url];
                 errorsLogged := errorsLogged s |} in
    match outcome with
    | Some a => (Returned a, s')
    | None => (Thrown, s')
    end.

Definition loadSearchIndex (env : Env) : M (option SearchIndex) :=
  cached <- getIndex ;;
  match cached with
  | Some i => ret (Some i)
  | None =>
      tryCatch
        (let base := if isChapterPage env then lit ".." else lit "." in
         indexData <- fetchJson (base ++ lit "/data/search_index.json")
                                (search_index_json env) ;;
         words <- match wordData env with
                  | Some w => ret w
                  | None => fetchJson (base ++ lit "/words.json") (words_json env)
                  end ;;
         let i := {| verses := data_verses indexData;
                     words := words;
                     stats := (verse_count indexData, word_count indexData,
                               chapter_count indexData) |} in
         setIndex i ;;;
         ret (Some i))
        (consoleError ;;; ret None)
  end.

(** *** Utilities *)

(** [div.textContent = text; return div.innerHTML]: the serialization of
    a text node. *)
Definition escapeChar (c : Z) : jsstring :=
  if c =? 38 then lit "&amp;"
  else if c =? 60 then lit "&lt;"
  else if c =? 62 then lit "&gt;"
  else if c =? 160 then lit "&nbsp;"
  else [c].

Definition escapeHtml (text : jsstring) : jsstring := flat_map escapeChar text.

(** The class [[.*+?^${}()|[\]\\]]. *)
Definition isRegexMeta (c : Z) : bool :=
  (c =? 46) || (c =? 42) || (c =? 43) || (c =? 63) || (c =? 94) ||
  (c =? 36) || (c =? 123) || (c =? 125) || (c =? 40) || (c =? 41) ||
  (c =? 124) || (c =? 91) || (c =? 93) || (c =? 92).

(** [query.replace(/[.*+?^${}()|[\]\\]/g, '\\$&')]. *)
Definition escapeRegExp (query : jsstring) : jsstring :=
  flat_map (fun c => if isRegexMeta c then [92; c] else [c]) query.

(** SyntaxCharacter of the grammar of patterns:
    [^ $ \ . * + ? ( ) [ ] { } |]. *)
Definition isSyntaxCharacter (c : Z) : bool :=
  (c =? 94) || (c =? 36) || (c =? 92) || (c =? 46) || (c =? 42) ||
  (c =? 43) || (c =? 63) || (c =? 40) || (c =? 41) || (c =? 91) ||
  (c =? 93) || (c =? 123) || (c =? 125) || (c =? 124).

(** A pattern read by the grammar: the text it stands for when it is
    made of pattern characters and of escaped syntax characters, and
    [None] when a syntax character stands in it unescaped (an operator,
    a class, a group, an assertion) or another escape is used. *)
Fixpoint literalPattern (pattern : jsstring) : option jsstring :=
  match pattern with
  | [] => Some []
  | c :: rest =>
      if c =? 92 then
        match rest with
        | d :: rest' =>
            if isSyntaxCharacter d then cons d <$> literalPattern rest' else None
        | [] => None
        end
      else if isSyntaxCharacter c then None
      else cons c <$> literalPattern rest
  end.

(** The characters a pattern made of literals and identity escapes
    stands for. *)
Fixpoint patternAtoms (pattern : jsstring) : jsstring :=
  match pattern with
  | [] => []
  | c :: rest =>
      if c =? 92 then
        match rest with
        | d :: rest' => d :: patternAtoms rest'
        | [] => []
        end
      else c :: patternAtoms rest
  end.

Definition markOpen : jsstring :=
  lit "<mark class=" ++ dq ++ lit "search-highlight" ++ dq ++ lit ">".
Definition markClose : jsstring := lit "</mark>".

(** [split(':')[0]] and [replace(':', '-')]. *)
Fixpoint beforeColon (s : jsstring) : jsstring :=
  match s with
  | [] => []
  | c :: rest => if c =? 58 then [] else c :: beforeColon rest
  end.

Fixpoint replaceColon (s : jsstring) : jsstring :=
  match s with
  | [] => []
  | c :: rest => if c =? 58 then 45 :: rest else c :: replaceColon rest
  end.

Definition openTag (name cls : string) : jsstring :=
  lit "<" ++ lit name ++ lit " class=" ++ dq ++ lit cls ++ dq ++ lit ">".

Definition anchor (href cls text : jsstring) : jsstring :=
  lit "<a href=" ++ dq ++ href ++ dq ++ lit " class=" ++ dq ++ cls ++ dq ++
  lit ">" ++ text ++ lit "</a>".

Record WordMatch := {
  geez : jsstring;
  data : LexiconEntry;
  matchType : jsstring
}.

Record GematriaMatch := {
  gm_geez : jsstring;
  gm_data : LexiconEntry
}.

(** [/[\u1200-\u137F]/.test(query)]. *)
Definition isGeezQuery (query : jsstring) : bool :=
  existsb (fun c => (0x1200 <=? c) && (c <=? 0x137F)) query.

Section Engine.

(** [String.prototype.toLowerCase], and the case folding of one code
    unit under the [i] flag of a regular expression. *)
Variable toLowerCase : jsstring -> jsstring.
Variable canonicalize : Z -> Z.

Fixpoint matchesAt (atoms text : jsstring) : bool :=
  match atoms, text with
  | [], _ => true
  | _ :: _, [] => false
  | a :: atoms', t :: text' =>
      (canonicalize a =? canonicalize t) && matchesAt atoms' text'
  end.

(** [text.replace(regex, '<mark ...>$1</mark>')] for the global,
    case-insensitive expression of the literal [atoms]: leftmost matches,
    one after the other. *)
Fixpoint replaceMatches (fuel : nat) (atoms text : jsstring) : jsstring :=
  match fuel with
  | O => text
  | S fuel' =>
      match text with
      | [] => []
      | c :: rest =>
          if matchesAt atoms text
          then markOpen ++ take (length atoms) text ++ markClose ++
               replaceMatches fuel' atoms (drop (length atoms) text)
          else c :: replaceMatches fuel' atoms rest
      end
  end.

Definition highlightMatch (text query : jsstring) : jsstring :=
  if negb (truthy query) then text
  else
    (* the expression is one group around the escaped query *)
    let source := escapeRegExp query in
    replaceMatches (length text) (patternAtoms source) text.

(** *** The three passes *)

(** The body of the first loop: [matched] and [matchType]. *)
Definition classify (isGeez : bool) (query q geez : jsstring) (data : LexiconEntry)
    : bool * jsstring :=
  if isGeez && includes geez query then (true, lit "Ge'ez match")
  else if negb isGeez then
    let def := toLowerCase (orElse (definition data) []) in
    let engDef := toLowerCase (orElse (english_definition data) []) in
    let trans := toLowerCase (orElse (transliteration data) []) in
    let root := toLowerCase (orElse (root data) []) in
    if includes def q then (true, lit "Definition")
    else if includes engDef q then (true, lit "Modern definition")
    else if includes trans q then (true, lit "Transliteration")
    else if includes root q then (true, lit "Root")
    else (false, [])
  else (false, []).

Definition searchWords (index : SearchIndex) (isGeez : bool) (query q : jsstring)
    : list WordMatch :=
  fold_left
    (fun wordMatches '(geez, data) =>
       let '(matched, matchType) := classify isGeez query q geez data in
       if matched
       then wordMatches ++ [{| geez := geez; data := data; matchType := matchType |}]
       else wordMatches)
    (words index) [].

Definition searchVerses (index : SearchIndex) (isGeez : bool) (q : jsstring)
    : list VerseRecord :=
  if negb isGeez then
    fold_left
      (fun verseMatches verse =>
         if includes (toLowerCase (english verse)) q
         then verseMatches ++ [verse]
         else verseMatches)
      (verses index) []
  else [].

Definition searchGematria (index : SearchIndex) (query : jsstring)
    : list GematriaMatch :=
  if allDigits query then
    let num := parseInt query in
    fold_left
      (fun gematriaMatches '(geez, data) =>
         if bool_decide (Finite <$> gematria data = Some num)
         then gematriaMatches ++ [{| gm_geez := geez; gm_data := data |}]
         else gematriaMatches)
      (words index) []
  else [].

(** *** The markup of the results *)

(** [d.definition || d.english_definition || '']. *)
Definition shownDefinition (d : LexiconEntry) : jsstring :=
  orElse (definition d) (orElse (english_definition d) []).

(** The references of the verses whose words hold [geez]. *)
Definition locationsOf (index : SearchIndex) (geez : jsstring) : list jsstring :=
  fold_left
    (fun locations verse =>
       if bool_decide (geez ∈ verseWords verse)
       then locations ++ [ref verse]
       else locations)
    (verses index) [].

Definition verseHref (chapterBase loc : jsstring) : jsstring :=
  chapterBase ++ beforeColon loc ++ lit ".html#v" ++ replaceColon loc.

(** One turn of the loop over the shown word matches. *)
Definition renderWord (index : SearchIndex) (chapterBase : jsstring)
    (html : jsstring) (wm : WordMatch) : jsstring :=
  let d := data wm in
  let def := shownDefinition d in
  let trans := orElse (transliteration d) [] in
  let locations := locationsOf index (geez wm) in
  let html :=
    html ++ openTag "div" "search-result-item" ++
      openTag "div" "search-result-word" ++
        openTag "span" "search-geez" ++ geez wm ++ lit "</span>" ++
        openTag "span" "search-trans" ++ trans ++ lit "</span>" ++
        openTag "span" "search-match-type" ++ matchType wm ++ lit "</span>" ++
      lit "</div>" ++
      openTag "div" "search-result-def" ++ escapeHtml def ++ lit "</div>" ++
      openTag "div" "search-result-locations" in
  let html :=
    fold_left
      (fun html loc =>
         html ++ anchor (verseHref chapterBase loc) (lit "search-verse-link") loc)
      locations html in
  html ++ lit "</div></div>".

Definition renderWords (index : SearchIndex) (chapterBase : jsstring)
    (wordMatches : list WordMatch) (html : jsstring) : jsstring :=
  if (0 <? length wordMatches)%nat then
    let html :=
      html ++ openTag "div" "search-section-label" ++ lit "Words (" ++
        numberToString (Z.of_nat (length wordMatches)) ++ lit ")</div>" in
    let shown := take 50 wordMatches in
    let html := fold_left (renderWord index chapterBase) shown html in
    if (50 <? length wordMatches)%nat then
      html ++ openTag "div" "search-more" ++ lit "... and " ++
        numberToString (Z.of_nat (length wordMatches) - 50) ++
        lit " more word matches</div>"
    else html
  else html.

(** One turn of the loop over the shown verse matches. *)
Definition renderVerse (chapterBase q : jsstring) (html : jsstring)
    (vm : VerseRecord) : jsstring :=
  let highlighted := highlightMatch (escapeHtml (english vm)) q in
  html ++ openTag "div" "search-result-item" ++
    anchor (verseHref chapterBase (ref vm)) (lit "search-verse-ref") (ref vm) ++
    openTag "div" "search-verse-text" ++ highlighted ++ lit "</div>" ++
  lit "</div>".

Definition renderVerses (chapterBase q : jsstring)
    (verseMatches : list VerseRecord) (html : jsstring) : jsstring :=
  if (0 <? length verseMatches)%nat then
    let html :=
      html ++ openTag "div" "search-section-label" ++ lit "Verses (" ++
        numberToString (Z.of_nat (length verseMatches)) ++ lit ")</div>" in
    let shown := take 30 verseMatches in
    let html := fold_left (renderVerse chapterBase q) shown html in
    if (30 <? length verseMatches)%nat then
      html ++ openTag "div" "search-more" ++ lit "... and " ++
        numberToString (Z.of_nat (length verseMatches) - 30) ++
        lit " more verse matches</div>"
    else html
  else html.

(** [String(gm.data.gematria)]. *)
Definition gematriaText (d : LexiconEntry) : jsstring :=
  match gematria d with
  | Some n => numberToString n
  | None => lit "undefined"
  end.

(** One turn of the loop over the gematria matches. *)
Definition renderGematriaMatch (html : jsstring) (gm : GematriaMatch) : jsstring :=
  let def := shownDefinition (gm_data gm) in
  html ++ openTag "div" "search-result-item" ++
    openTag "span" "search-geez" ++ gm_geez gm ++ lit "</span> " ++
    openTag "span" "search-trans" ++
      orElse (transliteration (gm_data gm)) [] ++ lit "</span> " ++
    openTag "span" "search-gematria-val" ++ lit "G: " ++
      gematriaText (gm_data gm) ++ lit "</span>" ++
    openTag "div" "search-result-def" ++ escapeHtml def ++ lit "</div>" ++
  lit "</div>".

Definition renderGematria (query : jsstring)
    (gematriaMatches : list GematriaMatch) (html : jsstring) : jsstring :=
  if (0 <? length gematriaMatches)%nat then
    let html :=
      html ++ openTag "div" "search-section-label" ++ lit "Gematria = " ++
        query ++ lit " (" ++
        numberToString (Z.of_nat (length gematriaMatches)) ++ lit ")</div>" in
    fold_left renderGematriaMatch gematriaMatches html
  else html.

Definition noResults (query : jsstring) : jsstring :=
  openTag "div" "search-empty" ++ lit "No results for " ++ dq ++
    escapeHtml query ++ dq ++ lit "</div>".

Definition summary (total : nat) : jsstring :=
  openTag "div" "search-summary" ++ numberToString (Z.of_nat total) ++
    lit " result" ++ (if negb (total =? 1)%nat then lit "s" else []) ++
    lit " found</div>".

(** From [// Build results HTML] to the value left in
    [resultsDiv.innerHTML]. *)
Definition renderResults (env : Env) (index : SearchIndex) (query q : jsstring)
    (wordMatches : list WordMatch) (verseMatches : list VerseRecord)
    (gematriaMatches : list GematriaMatch) : jsstring :=
  let html := [] in
  let chapterBase := if isChapterPage env then [] else lit "1_enoch/" in
  let html := renderWords index chapterBase wordMatches html in
  let html := renderVerses chapterBase q verseMatches html in
  let html := renderGematria query gematriaMatches html in
  let html :=
    if (length wordMatches =? 0)%nat && (length verseMatches =? 0)%nat &&
       (length gematriaMatches =? 0)%nat
    then noResults query
    else html in
  let total :=
    (length wordMatches + length verseMatches + length gematriaMatches)%nat in
  if (0 <? total)%nat then summary total ++ html else html.

(** The exit a call of [performSearch] takes, with the three lists the
    markup is rendered from when it searches. *)
Inductive Outcome :=
| TooShort
| IndexUnavailable
| Searched (wordMatches : list WordMatch) (verseMatches : list VerseRecord)
           (gematriaMatches : list GematriaMatch).

(** What a call leaves behind: [html] is [resultsDiv.innerHTML]. *)
Record Result := {
  outcome : Outcome;
  html : jsstring
}.

Definition tooShortHtml : jsstring :=
  openTag "div" "search-empty" ++ lit "Type at least 2 characters to search</div>".

Definition unavailableHtml : jsstring :=
  openTag "div" "search-empty" ++ lit "Search index not available</div>".

Definition performSearch (env : Env) (query : jsstring) : M Result :=
  if negb (truthy query) || (length query <? 2)%nat then
    ret {| outcome := TooShort; html := tooShortHtml |}
  else
    index <- loadSearchIndex env ;;
    match index with
    | None => ret {| outcome := IndexUnavailable; html := unavailableHtml |}
    | Some index =>
        let q := toLowerCase query in
        let isGeez := isGeezQuery query in
        let wordMatches := searchWords index isGeez query q in
        let verseMatches := searchVerses index isGeez q in
        let gematriaMatches := searchGematria index query in
        ret {| outcome := Searched wordMatches verseMatches gematriaMatches;
               html := renderResults env index query q
                         wordMatches verseMatches gematriaMatches |}
    end.

(** The listener of the search box (after its 200 ms pause):
    [performSearch(input.value.trim())]. *)
Definition onSearchInput (env : Env) (value : jsstring) : M Result :=
  performSearch env (trim value).

End Engine.

(** Lower case and case folding of the letters A-Z, the other code units
    kept: what the two functions do on strings of Basic Latin and Ethiopic
    code units. *)
Definition asciiToLowerCase (s : jsstring) : jsstring :=
  map (fun c => if (65 <=? c) && (c <=? 90) then c + 32 else c) s.

Definition asciiCanonicalize (c : Z) : Z :=
  if (97 <=? c) && (c <=? 122) then c - 32 else c.

End Search.

(** ** The specification's own wording of the engines *)

Module Spec.

Import Interlinear.

(** Vowel suffixes for the orders 0..6: a, u, i, a, e, none, o. *)
Definition vowelSuffix (order : Z) : jsstring :=
  match order with
  | 0 => lit "a"
  | 1 => lit "u"
  | 2 => lit "i"
  | 3 => lit "a"
  | 4 => lit "e"
  | 5 => []
  | 6 => lit "o"
  | _ => []
  end.

(** The syllable of a consonant at an offset of its row: the vowel
    suffix for the offsets 0..6, "wa" for the 8th form. *)
Definition syllable (consonant : jsstring) (offset : Z) : jsstring :=
  if offset =? 7 then consonant ++ lit "wa" else consonant ++ vowelSuffix offset.

Definition covers (cp : Z) (row : Z * jsstring) : bool :=
  (fst row <=? cp) && (cp <=? fst row + 7).

(** The table as the specification describes it: the code point is at
    one of the eight offsets of a consonant row, or it has no entry. *)
Definition table (cp : Z) : option jsstring :=
  match find (covers cp) rows with
  | Some (base, consonant) => Some (syllable consonant (cp - base))
  | None => None
  end.

(** What one character contributes to the transliteration. *)
Definition segment (ch : jsstring) : jsstring :=
  match codePointAt0 ch with
  | Some cp =>
      match TRANSLIT_BASES !! cp with
      | Some syl => syl
      | None => if (0x1200 <=? cp) && (cp <=? 0x137F) then lit "?" else ch
      end
  | None => ch
  end.


(** *** Stored and computed transliterations, variant definitions *)

Import WordModal.

(** A provider that supplies a non-empty value. *)
Definition supplies (p : option Value) : bool :=
  match p with
  | Some v => toBoolean v
  | None => false
  end.

(** The transliteration a store holds for a word, if any: the
    [transliteration] of the entry kept under the word. *)
Definition stored (s : Session) (store : option (gmap jsstring nat))
    (w : jsstring) : option Value :=
  d ← store; l ← d !! w; o ← heap s !! l; o !! lit "transliteration".

(** The stored providers of a word's transliteration, in their order. *)
Definition providers (s : Session) (w : jsstring) : list (option Value) :=
  [stored s (geezDefs s) w; stored s (wordData s) w].

(** First non-empty wins. *)
Definition firstNonEmpty (ps : list (option Value)) : option Value :=
  match find supplies ps with
  | Some p => p
  | None => None
  end.

(** The copy [lookupDefinition] returns for a variant form. *)
Definition variantOf (o : Obj) : Obj :=
  <[lit "variantNote" := VString (lit "(variant form)")]>
    (<[lit "hasVariant" := VBool true]> o).

(** The word without its last character, for a word longer than one. *)
Definition variantKey (geez : jsstring) : option jsstring :=
  if (1 <? length geez)%nat then Some (take (length geez - 1) geez) else None.

(** *** The query engine *)

Import Search.

(** [p] occurs in [s] as a run of consecutive code units. *)
Definition occursIn (p s : jsstring) : Prop := exists a b, s = a ++ p ++ b.

(** The four fields a Latin query is matched against, in their
    priority order, each with the label reported for it. *)
Definition fields : list (jsstring * (LexiconEntry -> option jsstring)) :=
  [ (lit "Definition", definition);
    (lit "Modern definition", english_definition);
    (lit "Transliteration", transliteration);
    (lit "Root", root) ].

(** A field in lower case, a missing field being empty. *)
Definition fieldText (toLowerCase : jsstring -> jsstring)
    (field : LexiconEntry -> option jsstring) (d : LexiconEntry) : jsstring :=
  toLowerCase (default [] (field d)).

(** The label of the first field that holds [q]. *)
Definition firstMatchingField (toLowerCase : jsstring -> jsstring)
    (q : jsstring) (d : LexiconEntry) : option jsstring :=
  fst <$> find (fun f => includes (fieldText toLowerCase (snd f) d) q) fields.

Definition latinWordMatch (toLowerCase : jsstring -> jsstring) (q : jsstring)
    (entry : jsstring * LexiconEntry) : option WordMatch :=
  (fun label => {| geez := fst entry; data := snd entry; matchType := label |})
    <$> firstMatchingField toLowerCase q (snd entry).

Definition geezWordMatch (query : jsstring) (entry : jsstring * LexiconEntry)
    : option WordMatch :=
  if includes (fst entry) query
  then Some {| geez := fst entry; data := snd entry; matchType := lit "Ge'ez match" |}
  else None.

Definition gematriaMatch (num : Number) (entry : jsstring * LexiconEntry)
    : option GematriaMatch :=
  if bool_decide (Finite <$> gematria (snd entry) = Some num)
  then Some {| gm_geez := fst entry; gm_data := snd entry |}
  else None.


(** The page of results, from the items shown in each section and the
    number of matches found for it. *)
Definition moreNote (count cap : nat) (what : string) : jsstring :=
  if (cap <? count)%nat then
    openTag "div" "search-more" ++ lit "... and " ++
      numberToString (Z.of_nat count - Z.of_nat cap) ++ lit what
  else [].

Definition wordsSection (index : SearchIndex) (chapterBase : jsstring)
    (shown : list WordMatch) (count : nat) : jsstring :=
  if (0 <? count)%nat then
    openTag "div" "search-section-label" ++ lit "Words (" ++
      numberToString (Z.of_nat count) ++ lit ")</div>" ++
    concat (map (renderWord index chapterBase []) shown) ++
    moreNote count 50 " more word matches</div>"
  else [].

Definition versesSection (canonicalize : Z -> Z) (chapterBase q : jsstring)
    (shown : list VerseRecord) (count : nat) : jsstring :=
  if (0 <? count)%nat then
    openTag "div" "search-section-label" ++ lit "Verses (" ++
      numberToString (Z.of_nat count) ++ lit ")</div>" ++
    concat (map (renderVerse canonicalize chapterBase q []) shown) ++
    moreNote count 30 " more verse matches</div>"
  else [].

Definition gematriaSection (query : jsstring) (shown : list GematriaMatch)
    (count : nat) : jsstring :=
  if (0 <? count)%nat then
    openTag "div" "search-section-label" ++ lit "Gematria = " ++ query ++
      lit " (" ++ numberToString (Z.of_nat count) ++ lit ")</div>" ++
    concat (map (renderGematriaMatch []) shown)
  else [].

Definition page (canonicalize : Z -> Z) (env : Env) (index : SearchIndex)
    (query q : jsstring)
    (shownWords : list WordMatch) (wordMatchCount : nat)
    (shownVerses : list VerseRecord) (verseMatchCount : nat)
    (shownGematria : list GematriaMatch) (gematriaMatchCount : nat) : jsstring :=
  let chapterBase := if isChapterPage env then [] else lit "1_enoch/" in
  let total := (wordMatchCount + verseMatchCount + gematriaMatchCount)%nat in
  if (total =? 0)%nat then noResults query
  else
    summary total ++
    wordsSection index chapterBase shownWords wordMatchCount ++
    versesSection canonicalize chapterBase q shownVerses verseMatchCount ++
    gematriaSection query shownGematria gematriaMatchCount.

(** The queries of a session, one after the other, each in the
    environment it runs in. *)
Fixpoint runQueries (toLowerCase : jsstring -> jsstring) (canonicalize : Z -> Z)
    (queries : list (Env * jsstring)) (s : Session)
    : list (Completion Result) * Session :=
  match queries with
  | [] => ([], s)
  | (env, value) :: rest =>
      let '(r, s') := onSearchInput toLowerCase canonicalize env value s in
      let '(rs, s'') := runQueries toLowerCase canonicalize rest s' in
      (r :: rs, s'')
  end.


End Spec.

(** ** The example of the specification, and data for the edge cases *)

Module Sample.

Import Search.

(** The word U+1230 U+120B U+121D, "peace", gematria 135. *)
Definition selam : jsstring := [0x1230; 0x120B; 0x121D].

Definition peace : LexiconEntry :=
  {| definition := Some (lit "peace"); english_definition := None;
     transliteration := None; root := None; gematria := Some 135;
     frequency := None; first_occurrence := None |}.

(** A one-letter word of gematria 7. *)
Definition ze : jsstring := [0x12D8].

Definition this : LexiconEntry :=
  {| definition := Some (lit "this"); english_definition := None;
     transliteration := None; root := None; gematria := Some 7;
     frequency := None; first_occurrence := None |}.

Definition verse11 : VerseRecord :=
  {| ref := lit "1:1"; english := lit "Peace be with you"; verseWords := [selam] |}.

Definition lexicon : Lexicon := [(selam, peace); (ze, this)].

Definition index : SearchIndex :=
  {| verses := [verse11]; words := lexicon; stats := (1, 2, 1) |}.

Definition env : Env :=
  {| isChapterPage := false;
     search_index_json :=
       Some {| data_verses := [verse11]; verse_count := 1; word_count := 2;
               chapter_count := 1 |};
     wordData := None;
     words_json := Some lexicon |}.

(** Both requests fail. *)
Definition offline : Env :=
  {| isChapterPage := false; search_index_json := None; wordData := None;
     words_json := None |}.

Definition fresh : Session :=
  {| searchIndex := None; requests := []; errorsLogged := 0 |}.

Definition loaded : Session :=
  {| searchIndex := Some index;
     requests := [lit "./data/search_index.json"; lit "./words.json"];
     errorsLogged := 0 |}.

(** A lexicon and a verse whose texts hold markup characters. *)
Definition marked : LexiconEntry :=
  {| definition := Some (lit "peace"); english_definition := None;
     transliteration := Some (lit "<b>salam</b>"); root := None;
     gematria := Some 135; frequency := None; first_occurrence := None |}.

Definition verseCamp : VerseRecord :=
  {| ref := lit "2:1"; english := lit "Camp & fire"; verseWords := [] |}.

Definition markedEnv : Env :=
  {| isChapterPage := false;
     search_index_json :=
       Some {| data_verses := [verseCamp]; verse_count := 1; word_count := 1;
               chapter_count := 1 |};
     wordData := None;
     words_json := Some [(selam, marked)] |}.

(** A store of definitions: the entry of [selam] at address 0. *)
Definition storedEntry : WordModal.Obj :=
  {[ lit "definition" := WordModal.VString (lit "peace");
     lit "transliteration" := WordModal.VString (lit "salam") ]}.

Definition defsSession : WordModal.Session :=
  {| WordModal.heap := [storedEntry];
     WordModal.geezDefs := Some {[ selam := 0%nat ]};
     WordModal.wordData := None |}.

(** Sixty entries whose definition is "peace". *)
Definition sixty : Lexicon :=
  map (fun n => ([0x1200 + Z.of_nat n], peace)) (seq 0 60).

Definition sixtyEnv : Env :=
  {| isChapterPage := true;
     search_index_json :=
       Some {| data_verses := []; verse_count := 0; word_count := 60;
               chapter_count := 0 |};
     wordData := Some sixty;
     words_json := None |}.

(** The lists a run searches with, when it does. *)
Definition matchesOf (run : Completion Result * Session)
    : option (list WordMatch * list VerseRecord * list GematriaMatch) :=
  match run with
  | (Returned {| outcome := Searched wm vm gm |}, _) => Some (wm, vm, gm)
  | _ => None
  end.

(** The page a run leaves, when it returns. *)
Definition pageOf (run : Completion Result * Session) : jsstring :=
  match run with
  | (Returned r, _) => html r
  | (Thrown, _) => []
  end.

End Sample.

(** ** interlinear.js: glosses *)

Module Gloss.

Import WordModal.

(** The prefix markers of [truncateGloss], in the order of the
    alternation. *)
Definition markers : list jsstring :=
  [ lit "and + "; lit "from + "; lit "in/by + "; lit "for/to + ";
    lit "of/which + "; lit "not + " ].

(** One turn of the group: the text after the first marker that the
    text starts with, if any. *)
Definition stripMarker (s : jsstring) : option jsstring :=
  match find (startsWith s) markers with
  | Some m => Some (drop (length m) s)
  | None => None
  end.

(** The repetition of the group, greedy; no text has more markers than
    code units. *)
Fixpoint stripMarkers (fuel : nat) (s : jsstring) : jsstring :=
  match fuel with
  | O => s
  | S fuel' =>
      match stripMarker s with
      | Some s' => stripMarkers fuel' s'
      | None => s
      end
  end.

(** [def.replace(/^(and \+ |from \+ |...)+/g, '')]. *)
Definition stripPrefixMarkers (def : jsstring) : jsstring :=
  stripMarkers (length def) def.

(** [clean.split(/[,;]/)[0]]. *)
Fixpoint firstPhrase (s : jsstring) : jsstring :=
  match s with
  | [] => []
  | c :: rest => if (c =? 44) || (c =? 59) then [] else c :: firstPhrase rest
  end.

(** [truncateGloss(def)] for a string. *)
Definition truncateGloss (def : jsstring) : jsstring :=
  if negb (truthy def) then lit "---"
  else
    let clean := stripPrefixMarkers def in
    let clean := trim (firstPhrase clean) in
    let clean :=
      if (25 <? length clean)%nat then take 22 clean ++ lit "..." else clean in
    if truthy clean then clean else lit "---".

(** [a || b] on values. *)
Definition orValue (a b : Value) : Value := if toBoolean a then a else b.

(** [truncateGloss(def)] for the value read from a store: a string is
    truncated, a falsy value gives the dashes, and any other value has
    no [replace] to call: [None] is the TypeError. *)
Definition truncateGlossValue (def : Value) : option jsstring :=
  match def with
  | VString d => Some (truncateGloss d)
  | _ => if toBoolean def then None else Some (lit "---")
  end.

(** [entry.definition || entry.english || '']. *)
Definition glossSource (s : Session) (r : Ref) : Value :=
  orValue (propOf s r (lit "definition"))
          (orValue (propOf s r (lit "english")) (VString [])).

(** [store && store[geezWord]]: the entry, when the guard holds. *)
Definition entryOf (store : option (gmap jsstring nat)) (geezWord : jsstring)
    : option Ref :=
  match store with
  | Some d => readKey d geezWord
  | None => None
  end.

(** [getWordGloss(geezWord)]; [None] is a TypeError. *)
Definition getWordGloss (s : Session) (geezWord : jsstring) : option jsstring :=
  match entryOf (geezDefs s) geezWord with
  | Some r => truncateGlossValue (glossSource s r)
  | None =>
      match entryOf (wordData s) geezWord with
      | Some r => truncateGlossValue (glossSource s r)
      | None => Some (lit "---")
      end
  end.

End Gloss.

(** ** word-modal.js: the analysis of a Fidel character *)

Module Fidel.

Record VowelOrder := {
  order_name : jsstring;
  order_vowel : jsstring;
  label : jsstring
}.

(** [GEEZ_VOWEL_ORDERS[order]]. *)
Definition GEEZ_VOWEL_ORDERS (order : Z) : option VowelOrder :=
  match order with
  | 1 => Some {| order_name := lit "1st order"; order_vowel := [0xE4]; label := lit "ae" |}
  | 2 => Some {| order_name := lit "2nd order"; order_vowel := lit "u"; label := lit "u" |}
  | 3 => Some {| order_name := lit "3rd order"; order_vowel := lit "i"; label := lit "i" |}
  | 4 => Some {| order_name := lit "4th order"; order_vowel := lit "a"; label := lit "a" |}
  | 5 => Some {| order_name := lit "5th order"; order_vowel := lit "e"; label := lit "e" |}
  | 6 => Some {| order_name := lit "6th order"; order_vowel := [0x259]; label := lit "schwa" |}
  | 7 => Some {| order_name := lit "7th order"; order_vowel := lit "o"; label := lit "o" |}
  | _ => None
  end.

(** A row of [GEEZ_CONSONANTS]. *)
Record Consonant := {
  name : jsstring;
  info_translit : jsstring;
  base : Z
}.

Definition consonantRow (name translit : string) (base : Z) : jsstring * Consonant :=
  ([base], {| name := lit name; info_translit := lit translit; base := base |}).

(** [Object.entries(GEEZ_CONSONANTS)]. *)
Definition GEEZ_CONSONANTS : list (jsstring * Consonant) :=
  [ consonantRow "Hoy" "h" 0x1200; consonantRow "Lawe" "l" 0x1208;
    consonantRow "Hawt" "H" 0x1210; consonantRow "May" "m" 0x1218;
    consonantRow "Sewt" "s" 0x1220; consonantRow "Rees" "r" 0x1228;
    consonantRow "Sat" "s" 0x1230; consonantRow "Shawt" "sh" 0x1238;
    consonantRow "Qaf" "q" 0x1240; consonantRow "Bet" "b" 0x1260;
    consonantRow "Taw" "t" 0x1268; consonantRow "Harm" "x" 0x1270;
    consonantRow "Nahas" "n" 0x1278; consonantRow "Ayn" "'" 0x1280;
    consonantRow "Nahas" "n" 0x1290; consonantRow "Nyahas" "ny" 0x1298;
    consonantRow "Alef" "'" 0x12A0; consonantRow "Kaf" "k" 0x12A8;
    consonantRow "Wawe" "w" 0x12C8; consonantRow "Ayin" "'" 0x12D0;
    consonantRow "Zay" "z" 0x12D8; consonantRow "Zhe" "zh" 0x12E0;
    consonantRow "Yaman" "y" 0x12E8; consonantRow "Dent" "d" 0x12F0;
    consonantRow "Dhi" "dd" 0x12F8; consonantRow "Jee" "j" 0x1300;
    consonantRow "Gemel" "g" 0x1308; consonantRow "Teyt" "T" 0x1320;
    consonantRow "Cheha" "ch" 0x1328; consonantRow "Pharyngeal T" "P" 0x1330;
    consonantRow "Tsadey" "ts" 0x1338; consonantRow "Tsappa" "ts'" 0x1340;
    consonantRow "Af" "f" 0x1348; consonantRow "Psa" "p" 0x1350 ].

(** What [analyzeGeezChar] returns. *)
Record Analysis := {
  char : jsstring;
  consonant : jsstring;
  translit : jsstring;
  order : Z;
  orderName : jsstring;
  vowel : jsstring;
  fullTranslit : jsstring
}.

(** The test of the loop: [offset >= 0 && offset < 8], false for the
    [NaN] of an empty string. *)
Definition inRow (codePoint : option Z) (info : Consonant) : bool :=
  match codePoint with
  | Some cp => (0 <=? cp - base info) && (cp - base info <? 8)
  | None => false
  end.

(** The object built for the row that holds the character; [None] is
    the TypeError of reading [name] off a missing vowel order. *)
Definition analysisIn (char : jsstring) (cp : Z) (info : Consonant) : option Analysis :=
  let offset := cp - base info in
  let order := offset + 1 in
  if order <=? 7 then
    match GEEZ_VOWEL_ORDERS order with
    | Some vo =>
        Some {| char := char; consonant := name info; translit := info_translit info;
                order := Z.min order 7; orderName := order_name vo;
                vowel := order_vowel vo;
                fullTranslit := info_translit info ++ label vo |}
    | None => None
    end
  else
    Some {| char := char; consonant := name info; translit := info_translit info;
            order := Z.min order 7; orderName := lit "labiovelar";
            vowel := lit "wa";
            fullTranslit := info_translit info ++ lit "wa" |}.

Definition unknownChar (char : jsstring) : Analysis :=
  {| char := char; consonant := lit "Unknown"; translit := lit "?"; order := 0;
     orderName := lit "unknown"; vowel := []; fullTranslit := lit "?" |}.

(** [analyzeGeezChar(char)]: the first row, in the order of the table,
    that holds the code point. *)
Definition analyzeGeezChar (char : jsstring) : option Analysis :=
  let codePoint := codePointAt0 char in
  match find (fun entry => inRow codePoint (snd entry)) GEEZ_CONSONANTS with
  | Some (_, info) =>
      match codePoint with
      | Some cp => analysisIn char cp info
      | None => Some (unknownChar char)
      end
  | None => Some (unknownChar char)
  end.

End Fidel.

(** ** Notions the further properties are stated with *)

Module Shape.

Import Search.

(** A code unit of the Ethiopic block. *)
Definition ethiopic (c : Z) : Prop := 0x1200 <= c <= 0x137F.

(** A character as the string iterator yields it: one code unit, or a
    lead surrogate with its trail surrogate. *)
Definition isCharacter (ch : jsstring) : Prop :=
  (exists c, ch = [c]) \/
  (exists c d, ch = [c; d] /\ isLeadSurrogate c = true /\ isTrailSurrogate d = true).

(** The text does not start with a trail surrogate. *)
Definition startsClean (s : jsstring) : Prop :=
  match s with
  | [] => True
  | d :: _ => isTrailSurrogate d = false
  end.

(** A piece of a highlighted text: marked or not. *)
Definition renderPiece (p : bool * jsstring) : jsstring :=
  if fst p then markOpen ++ snd p ++ markClose else snd p.

End Shape.

Module Acquisition.

Import Search.

(** The lexicon a load uses: [wordData] when word-modal.js has it,
    else the document words.json. *)
Definition lexiconOf (env : Env) : option Lexicon :=
  match wordData env with
  | Some w => Some w
  | None => words_json env
  end.

(** The requests of a load that finds its documents. *)
Definition loadRequests (env : Env) : list jsstring :=
  let base := if isChapterPage env then lit ".." else lit "." in
  (base ++ lit "/data/search_index.json") ::
  match wordData env with
  | Some _ => []
  | None => [base ++ lit "/words.json"]
  end.

End Acquisition.

(** ** word-modal.js: the load of the definitions *)

Module Loader.

(** What [fetch] and [response.json()] come to: the request is
    rejected, the response is not ok, its body does not parse, or the
    value the body parses to. *)
Inductive Response :=
| NetworkError
| NotOk
| BadBody
| Body (doc : WordModal.Value).

(** [geezDefs] and [defsLoaded], with a count of the requests sent, of
    the warnings and of the messages logged. *)
Record State := {
  geezDefs : WordModal.Value;
  defsLoaded : bool;
  requests : nat;
  warnings : nat;
  logs : nat
}.

(** [Object.keys(v)] throws for [null] and [undefined] only. *)
Definition hasKeys (v : WordModal.Value) : bool :=
  match v with
  | WordModal.VUndefined | WordModal.VNull => false
  | _ => true
  end.

(** [loadGeezDefinitions()]: what it returns and the state it leaves.
    The body is stored and the flag set before the entries are counted
    for the message, so that a body without keys to count is stored
    too, and the exception of the count is caught as a warning. *)
Definition loadGeezDefinitions (response : Response) (s : State)
    : WordModal.Value * State :=
  if defsLoaded s && WordModal.toBoolean (geezDefs s) then (geezDefs s, s)
  else
    match response with
    | NetworkError | BadBody =>
        (geezDefs s,
         {| geezDefs := geezDefs s; defsLoaded := defsLoaded s;
            requests := S (requests s); warnings := S (warnings s);
            logs := logs s |})
    | NotOk =>
        (geezDefs s,
         {| geezDefs := geezDefs s; defsLoaded := defsLoaded s;
            requests := S (requests s); warnings := warnings s;
            logs := logs s |})
    | Body doc =>
        if hasKeys doc then
          (doc,
           {| geezDefs := doc; defsLoaded := true;
              requests := S (requests s); warnings := warnings s;
              logs := S (logs s) |})
        else
          (doc,
           {| geezDefs := doc; defsLoaded := true;
              requests := S (requests s); warnings := S (warnings s);
              logs := logs s |})
    end.

(** The calls of a session, one response each. *)
Definition loadAll (responses : list Response) (s : State) : State :=
  fold_left (fun s response => snd (loadGeezDefinitions response s)) responses s.

End Loader.

Module Store.

Import WordModal.

(** Every entry of a store is an object of the heap. *)
Definition allocated (s : Session) (store : option (gmap jsstring nat)) : Prop :=
  forall d w l, store = Some d -> d !! w = Some l -> (l < length (heap s))%nat.

Definition wellFormed (s : Session) : Prop :=
  allocated s (geezDefs s) /\ allocated s (wordData s).

(** A store answers to a word: it is a dictionary with the word as a
    key, or with the word as the name of a property it inherits. *)
Definition answers (store : option (gmap jsstring nat)) (w : jsstring) : Prop :=
  exists d, store = Some d /\ (is_Some (d !! w) \/ w ∈ objectPrototypeKeys).

End Store.

(** ** Transliteration: properties *)

Section TransliterationFacts.

Import Interlinear.

Lemma covers_spec cp row :
  Spec.covers cp row = true <-> fst row <= cp <= fst row + 7.
Proof. unfold Spec.covers. rewrite andb_true_iff, !Z.leb_le. reflexivity. Qed.

Lemma addRow_lookup (tbl : gmap Z jsstring) (row : Z * jsstring) (cp : Z) :
  addRow tbl row !! cp =
  if Spec.covers cp row then Some (Spec.syllable (snd row) (cp - fst row))
  else tbl !! cp.
Proof.
  destruct row as [base c].
  destruct (Spec.covers cp (base, c)) eqn:Hc.
  - apply covers_spec in Hc. cbn [fst snd] in *.
    assert (Hk : cp - base = 0 \/ cp - base = 1 \/ cp - base = 2 \/ cp - base = 3 \/
                 cp - base = 4 \/ cp - base = 5 \/ cp - base = 6 \/ cp - base = 7) by lia.
    unfold addRow. cbn [fold_left seq Z.of_nat Pos.of_succ_nat Pos.succ].
    rewrite !lookup_insert.
    repeat (destruct Hk as [Hk | Hk]);
      rewrite Hk; repeat case_decide; try lia; reflexivity.
  - assert (Hn : ~ (base <= cp <= base + 7)) by (rewrite <- (covers_spec cp (base, c)); congruence).
    unfold addRow. cbn [fold_left seq Z.of_nat Pos.of_succ_nat Pos.succ].
    rewrite !lookup_insert_ne by lia. reflexivity.
Qed.

Lemma buildRows_lookup (rs : list (Z * jsstring)) (tbl : gmap Z jsstring) (cp : Z) :
  fold_left addRow rs tbl !! cp =
  match find (Spec.covers cp) (rev rs) with
  | Some (base, consonant) => Some (Spec.syllable consonant (cp - base))
  | None => tbl !! cp
  end.
Proof.
  induction rs as [| r rs IH] using rev_ind; [reflexivity |].
  rewrite fold_left_app, rev_unit. cbn [fold_left find].
  rewrite addRow_lookup. destruct (Spec.covers cp r); [destruct r |]; auto.
Qed.

Lemma find_rev_unique {A} (f : A -> bool) (l : list A) :
  (forall x y, In x l -> In y l -> f x = true -> f y = true -> x = y) ->
  find f (rev l) = find f l.
Proof.
  intros Huniq.
  destruct (find f l) as [x |] eqn:Hl; destruct (find f (rev l)) as [y |] eqn:Hr; auto.
  - apply find_some in Hl as [Hx Hfx]. apply find_some in Hr as [Hy Hfy].
    apply in_rev in Hy. f_equal. auto.
  - apply find_some in Hl as [Hx Hfx].
    apply in_rev in Hx. rewrite (find_none _ _ Hr x Hx) in Hfx. discriminate.
  - apply find_some in Hr as [Hy Hfy]. apply in_rev in Hy.
    rewrite (find_none _ _ Hl y Hy) in Hfy. discriminate.
Qed.

Lemma rows_apart :
  forallb (fun r1 => forallb (fun r2 =>
     (7 <? Z.abs (fst r1 - fst r2)) || bool_decide (r1 = r2)) rows) rows = true.
Proof. vm_compute. reflexivity. Qed.

Lemma rows_cover_once (cp : Z) (r1 r2 : Z * jsstring) :
  In r1 rows -> In r2 rows ->
  Spec.covers cp r1 = true -> Spec.covers cp r2 = true -> r1 = r2.
Proof.
  intros H1 H2 C1 C2. pose proof rows_apart as Hall.
  rewrite forallb_forall in Hall. specialize (Hall r1 H1).
  rewrite forallb_forall in Hall. specialize (Hall r2 H2).
  apply covers_spec in C1, C2.
  apply orb_true_iff in Hall as [Hfar | Heq].
  - apply Z.ltb_lt in Hfar. lia.
  - now apply bool_decide_eq_true in Heq.
Qed.

Lemma TRANSLIT_BASES_lookup (cp : Z) : TRANSLIT_BASES !! cp = Spec.table cp.
Proof.
  unfold TRANSLIT_BASES, buildTranslitTable, Spec.table.
  rewrite buildRows_lookup, find_rev_unique.
  - destruct (find (Spec.covers cp) rows) as [[b c] |]; [reflexivity | apply lookup_empty].
  - intros x y Hx Hy. apply rows_cover_once; assumption.
Qed.

Lemma rows_consonants : Forall (fun r : Z * jsstring => snd r <> []) rows.
Proof. unfold rows. repeat constructor; discriminate. Qed.

Lemma TRANSLIT_BASES_truthy (cp : Z) (syl : jsstring) :
  TRANSLIT_BASES !! cp = Some syl -> truthy syl = true.
Proof.
  rewrite TRANSLIT_BASES_lookup. unfold Spec.table.
  destruct (find (Spec.covers cp) rows) as [[b c] |] eqn:Hf; [| discriminate].
  apply find_some in Hf as [Hin _].
  pose proof rows_consonants as Hc. rewrite List.Forall_forall in Hc.
  apply Hc in Hin. cbn in Hin.
  intros [= <-]. unfold Spec.syllable.
  destruct c; [done |]. destruct (_ =? _); reflexivity.
Qed.

Lemma transliterateStep_segment (result ch : jsstring) :
  transliterateStep result ch = result ++ Spec.segment ch.
Proof.
  unfold transliterateStep, Spec.segment, tableAt, inEthiopic.
  destruct (codePointAt0 ch) as [cp |]; [| reflexivity].
  destruct (TRANSLIT_BASES !! cp) as [syl |] eqn:Hs.
  - now rewrite (TRANSLIT_BASES_truthy cp syl Hs).
  - destruct (_ && _); reflexivity.
Qed.

Lemma transliterate_fold (chars : list jsstring) (acc : jsstring) :
  fold_left transliterateStep chars acc = acc ++ concat (map Spec.segment chars).
Proof.
  revert acc. induction chars as [| ch chars IH]; intros acc; cbn.
  - now rewrite app_nil_r.
  - rewrite IH, transliterateStep_segment. now rewrite <- app_assoc.
Qed.

Lemma stringIterator_concat_bounded (n : nat) (s : jsstring) :
  (length s <= n)%nat -> concat (stringIterator s) = s.
Proof.
  revert s. induction n as [| n IH]; intros s Hn.
  - destruct s; [reflexivity | cbn in Hn; lia].
  - destruct s as [| c [| d rest]]; [reflexivity | reflexivity |].
    change (stringIterator (c :: d :: rest))
      with (if isLeadSurrogate c && isTrailSurrogate d
            then [c; d] :: stringIterator rest
            else [c] :: stringIterator (d :: rest)).
    destruct (isLeadSurrogate c && isTrailSurrogate d).
    + cbn [concat app]. rewrite IH; [reflexivity | cbn in Hn |- *; lia].
    + cbn [concat app]. rewrite IH; [reflexivity | cbn in Hn |- *; lia].
Qed.

Lemma stringIterator_concat (s : jsstring) : concat (stringIterator s) = s.
Proof. apply (stringIterator_concat_bounded (length s)). lia. Qed.

(** C1. [transliterate] handles the characters of its input one by one
    and in order (the characters, joined, are the input): each
    contributes its segment, which is the table's syllable when its code
    point is a key of the table, the placeholder "?" when it is an
    Ethiopic code point (0x1200..0x137F) without an entry, and the
    character itself otherwise.  The table is the one of the consonant
    rows: at offset 0..6 of a row the consonant followed by the vowel
    suffix a, u, i, a, e, none, o, at offset 7 the consonant followed by
    "wa", and nothing elsewhere.  The function is total. *)
Theorem transliterate_per_character (w : jsstring) :
  transliterate w = concat (map Spec.segment (stringIterator w)) /\
  concat (stringIterator w) = w /\
  (forall cp : Z, TRANSLIT_BASES !! cp = Spec.table cp).
Proof.
  split; [| split].
  - unfold transliterate. now rewrite transliterate_fold.
  - apply stringIterator_concat.
  - apply TRANSLIT_BASES_lookup.
Qed.

(** The example of the specification: "ha " keeps its trailing space;
    a sixth-order character has no vowel; an Ethiopic digit has no
    entry. *)
Example transliterate_ha_space :
  transliterate [0x1200; 32] = lit "ha " /\
  transliterate [0x1230; 0x120B; 0x121D] = lit "salam" /\
  transliterate [0x1369] = lit "?".
Proof. vm_compute. auto. Qed.

End TransliterationFacts.

(** ** Strings and numbers: properties *)

Section StringFacts.

Lemma startsWith_spec (s p : jsstring) :
  startsWith s p = true <-> exists b, s = p ++ b.
Proof.
  revert s. induction p as [| x p IH]; intros s.
  - destruct s; cbn; split; eauto.
  - destruct s as [| y s]; cbn.
    + split; [discriminate | intros [b Hb]; discriminate].
    + rewrite andb_true_iff, Z.eqb_eq, IH. split.
      * intros [-> [b ->]]. eauto.
      * intros [b [= -> ->]]. eauto.
Qed.

Lemma includes_spec (s p : jsstring) :
  includes s p = true <-> Spec.occursIn p s.
Proof.
  unfold Spec.occursIn. induction s as [| c s IH].
  - cbn [includes]. rewrite orb_false_r, startsWith_spec. split.
    + intros [b Hb]. exists [], b. exact Hb.
    + intros [a [b Hab]]. destruct a; [eauto | discriminate].
  - cbn [includes]. rewrite orb_true_iff, startsWith_spec, IH. split.
    + intros [[b Hb] | [a [b Hab]]].
      * exists [], b. exact Hb.
      * exists (c :: a), b. now rewrite Hab.
    + intros [[| c' a] [b Hab]].
      * left. eauto.
      * right. injection Hab as -> ->. eauto.
Qed.

Lemma trimStart_keep (c : Z) (s : jsstring) :
  isWhiteSpace c = false -> trimStart (c :: s) = c :: s.
Proof. intros H. cbn. now rewrite H. Qed.

Lemma trim_keep (s : jsstring) :
  match s with [] => True | c :: _ => isWhiteSpace c = false end ->
  match rev s with [] => True | c :: _ => isWhiteSpace c = false end ->
  trim s = s.
Proof.
  intros Hh Hl. unfold trim, trimEnd.
  assert (Hs : trimStart s = s) by (destruct s; [reflexivity | now apply trimStart_keep]).
  rewrite Hs.
  destruct (rev s) as [| c r] eqn:Hr.
  - cbn. apply (f_equal (@rev Z)) in Hr. now rewrite rev_involutive in Hr.
  - rewrite trimStart_keep by exact Hl. rewrite <- Hr. apply rev_involutive.
Qed.

Lemma truthy_length (s : jsstring) : (0 < length s)%nat -> truthy s = true.
Proof. destruct s; cbn; [lia | reflexivity]. Qed.

Lemma digitsOf_S (fuel : nat) (n : Z) (acc : jsstring) :
  digitsOf (S fuel) n acc =
  if n / 10 =? 0 then (48 + n mod 10) :: acc
  else digitsOf fuel (n / 10) ((48 + n mod 10) :: acc).
Proof. reflexivity. Qed.

Lemma digitsOf_spec (fuel : nat) (n : Z) (acc : jsstring) :
  0 <= n < 2 ^ Z.of_nat (S fuel) ->
  exists ds, digitsOf (S fuel) n acc = ds ++ acc /\
             ds <> [] /\ forallb isDigit ds = true /\ decimalValue ds = n /\
             (10 <= n -> (2 <= length ds)%nat).
Proof.
  revert n acc. induction fuel as [| fuel IH]; intros n acc Hn.
  - assert (n = 0 \/ n = 1) as [-> | ->] by (cbn in Hn; lia);
      (eexists [_]; cbn; repeat split; try discriminate; lia).
  - rewrite digitsOf_S. destruct (n / 10 =? 0) eqn:Hq.
    + apply Z.eqb_eq in Hq.
      assert (Hlt : 0 <= n < 10).
      { pose proof (Z.div_mod n 10 ltac:(lia)). pose proof (Z.mod_pos_bound n 10 ltac:(lia)). lia. }
      exists [48 + n mod 10]. rewrite Z.mod_small by lia.
      split; [reflexivity |]. split; [discriminate |].
      split; [| split; [cbn; lia | cbn; lia]].
      cbn. unfold isDigit. rewrite andb_true_r. apply andb_true_iff.
      rewrite !Z.leb_le. lia.
    + apply Z.eqb_neq in Hq.
      destruct (IH (n / 10) ((48 + n mod 10) :: acc)) as (ds & Heq & Hne & Hdig & Hval & Hlen).
      { split; [apply Z.div_pos; lia |].
        apply Z.div_lt_upper_bound; [lia |].
        replace (Z.of_nat (S (S fuel))) with (Z.succ (Z.of_nat (S fuel))) in Hn by lia.
        rewrite Z.pow_succ_r in Hn by lia. lia. }
      exists (ds ++ [48 + n mod 10]).
      rewrite Heq, <- app_assoc. cbn [app].
      pose proof (Z.mod_pos_bound n 10 ltac:(lia)) as Hm.
      split; [reflexivity |]. split; [| split; [| split]].
      * destruct ds; discriminate.
      * rewrite forallb_app, Hdig. cbn. unfold isDigit.
        rewrite andb_true_r. apply andb_true_iff. rewrite !Z.leb_le. lia.
      * unfold decimalValue in *. rewrite fold_left_app, Hval. cbn.
        pose proof (Z.div_mod n 10 ltac:(lia)). lia.
      * intros _. rewrite length_app. cbn. destruct ds; [congruence | cbn; lia].
Qed.

Lemma numberToString_spec (n : Z) :
  0 <= n ->
  numberToString n <> [] /\ forallb isDigit (numberToString n) = true /\
  decimalValue (numberToString n) = n /\ (10 <= n -> (2 <= length (numberToString n))%nat).
Proof.
  intros Hn. unfold numberToString.
  destruct (n <? 0) eqn:Hlt; [apply Z.ltb_lt in Hlt; lia |].
  destruct (digitsOf_spec (Z.to_nat (Z.log2 n)) n []) as (ds & Heq & Hne & Hdig & Hval & Hlen).
  { split; [lia |]. rewrite Nat2Z.inj_succ, Z2Nat.id by apply Z.log2_nonneg.
    destruct (Z.eq_dec n 0) as [-> | Hz]; [cbn; lia |].
    apply Z.log2_spec. lia. }
  rewrite Heq, app_nil_r. auto.
Qed.
End StringFacts.

(** ** Stored transliterations and definition lookup: properties *)

Section WordModalFacts.
Import WordModal.

Lemma firstNonEmpty_None (ps : list (option Value)) :
  Spec.firstNonEmpty ps = None <-> Forall (fun p => Spec.supplies p = false) ps.
Proof.
  unfold Spec.firstNonEmpty. induction ps as [| p ps IH]; cbn [find].
  - split; [constructor | reflexivity].
  - destruct (Spec.supplies p) eqn:Hp.
    + split.
      * intros ->. discriminate.
      * intros Hall. inversion Hall; congruence.
    + rewrite IH. split.
      * now constructor.
      * intros Hall. now inversion Hall.
Qed.

Lemma readKey_own (d : gmap jsstring nat) (w : jsstring) (l : nat) :
  d !! w = Some l -> readKey d w = Some (At l).
Proof. intros Hl. unfold readKey. now rewrite Hl. Qed.

Lemma readKey_cases (d : gmap jsstring nat) (w : jsstring) :
  readKey d w =
  match d !! w with
  | Some l => Some (At l)
  | None => if bool_decide (w ∈ objectPrototypeKeys) then Some (Builtin w) else None
  end.
Proof. reflexivity. Qed.

(** What the guarded read of the code finds is what the store holds:
    a truthy value is the stored one, and any other outcome means that
    the store supplies nothing. *)
Lemma storedTranslit_stored (s : Session) (store : option (gmap jsstring nat))
    (w : jsstring) :
  match storedTranslit s store w with
  | Some v =>
      if toBoolean v then Spec.stored s store w = Some v
      else Spec.supplies (Spec.stored s store w) = false
  | None => Spec.stored s store w = None
  end.
Proof.
  unfold storedTranslit, Spec.stored. destruct store as [d |]; [| reflexivity].
  cbn [mbind option_bind]. rewrite readKey_cases.
  destruct (d !! w) as [l |]; cbn [mbind option_bind].
  - unfold propOf, getProp, objectAt.
    destruct (heap s !! l) as [o |]; cbn [mbind option_bind default];
      [| rewrite lookup_empty; reflexivity].
    destruct (o !! lit "transliteration") as [v |] eqn:Hv; unfold default, id.
    + rewrite Hv. destruct (toBoolean v) eqn:Hb; [reflexivity | exact Hb].
    + rewrite Hv. reflexivity.
  - destruct (bool_decide _); reflexivity.
Qed.

Lemma getWordTranslit_first (s : Session) (w : jsstring) :
  getWordTranslit s w =
  default (VString (Interlinear.transliterate w))
          (Spec.firstNonEmpty (Spec.providers s w)).
Proof.
  unfold getWordTranslit, Spec.firstNonEmpty, Spec.providers. cbn [find].
  pose proof (storedTranslit_stored s (geezDefs s) w) as Hg.
  pose proof (storedTranslit_stored s (wordData s) w) as Hw.
  destruct (storedTranslit s (geezDefs s) w) as [v1 |];
    [destruct (toBoolean v1) eqn:Hb1 |];
    try (rewrite Hg; cbn [Spec.supplies]; rewrite ?Hb1; reflexivity);
    rewrite Hg; cbn [Spec.supplies];
    (destruct (storedTranslit s (wordData s) w) as [v2 |];
     [destruct (toBoolean v2) eqn:Hb2 |]);
    rewrite Hw; cbn [Spec.supplies]; rewrite ?Hb2; reflexivity.
Qed.

(** C9. [getWordTranslit] follows the chain of its providers, first
    non-empty wins: the transliteration the entry of the word holds in
    [geezDefs], else the one its entry holds in [wordData], else the
    computed [transliterate(word)]; the computed one is the result
    exactly when no provider supplies a non-empty stored value. *)
Theorem getWordTranslit_chain (s : Session) (w : jsstring) :
  getWordTranslit s w =
    default (VString (Interlinear.transliterate w))
            (Spec.firstNonEmpty (Spec.providers s w)) /\
  (Spec.firstNonEmpty (Spec.providers s w) = None <->
     Forall (fun p => Spec.supplies p = false) (Spec.providers s w)) /\
  (Forall (fun p => Spec.supplies p = false) (Spec.providers s w) ->
     getWordTranslit s w = VString (Interlinear.transliterate w)) /\
  (forall v, Spec.firstNonEmpty (Spec.providers s w) = Some v ->
     getWordTranslit s w = v /\ toBoolean v = true) /\
  (forall d l o v,
     geezDefs s = Some d -> d !! w = Some l -> heap s !! l = Some o ->
     o !! lit "transliteration" = Some v -> toBoolean v = true ->
     getWordTranslit s w = v) /\
  (forall d l o v,
     Spec.supplies (Spec.stored s (geezDefs s) w) = false ->
     wordData s = Some d -> d !! w = Some l -> heap s !! l = Some o ->
     o !! lit "transliteration" = Some v -> toBoolean v = true ->
     getWordTranslit s w = v).
Proof.
  split; [apply getWordTranslit_first |]. split; [apply firstNonEmpty_None |].
  split; [| split; [| split]].
  - intros Hall. apply firstNonEmpty_None in Hall.
    now rewrite getWordTranslit_first, Hall.
  - intros v Hv. rewrite getWordTranslit_first, Hv. split; [reflexivity |].
    unfold Spec.firstNonEmpty in Hv.
    destruct (find Spec.supplies (Spec.providers s w)) as [p |] eqn:Hf; [| discriminate].
    apply find_some in Hf as [_ Hp]. now subst p.
  - intros d l o v Hd Hl Ho Hv Hb. rewrite getWordTranslit_first.
    unfold Spec.firstNonEmpty, Spec.providers, Spec.stored. cbn [find].
    rewrite Hd. cbn [mbind option_bind]. rewrite Hl. cbn [mbind option_bind].
    rewrite Ho. cbn [mbind option_bind]. rewrite Hv. cbn [Spec.supplies].
    now rewrite Hb.
  - intros d l o v Hno Hd Hl Ho Hv Hb. rewrite getWordTranslit_first.
    unfold Spec.firstNonEmpty, Spec.providers. cbn [find]. rewrite Hno.
    unfold Spec.stored at 1 2. rewrite Hd. cbn [mbind option_bind].
    rewrite Hl. cbn [mbind option_bind]. rewrite Ho. cbn [mbind option_bind].
    rewrite Hv. cbn [Spec.supplies]. now rewrite Hb.
Qed.

Lemma snoc_lookup_last {A} (h : list A) (o : A) : (h ++ [o]) !! length h = Some o.
Proof. now apply list_lookup_middle. Qed.

Lemma snoc_insert_last {A} (h : list A) (o x : A) : <[length h := x]> (h ++ [o]) = h ++ [x].
Proof.
  replace (length h) with (length h + 0)%nat at 1 by lia.
  now rewrite insert_app_r.
Qed.

Lemma lookupDefinition_spec (geez : jsstring) (s : Session) :
  lookupDefinition geez s =
  match geezDefs s with
  | None => (None, s)
  | Some defs =>
      match readKey defs geez with
      | Some r => (Some r, s)
      | None =>
          match Spec.variantKey geez ≫= readKey defs with
          | Some r =>
              (Some (At (length (heap s))),
               {| heap := heap s ++ [Spec.variantOf (ownProperties s r)];
                  geezDefs := geezDefs s; wordData := wordData s |})
          | None => (None, s)
          end
      end
  end.
Proof.
  unfold lookupDefinition, Spec.variantKey.
  destruct (geezDefs s) as [defs |] eqn:Hd; [| reflexivity].
  destruct (readKey defs geez) as [r |]; [reflexivity |].
  destruct (1 <? length geez)%nat; [| reflexivity]. cbn [mbind option_bind].
  destruct (readKey defs (take (length geez - 1) geez)) as [r |]; [| reflexivity].
  unfold bind, spread, setProp, ret, objectAt. cbn [heap geezDefs wordData].
  rewrite snoc_lookup_last, snoc_insert_last. cbn [default].
  rewrite snoc_lookup_last, snoc_insert_last. cbn [default].
  rewrite Hd. reflexivity.
Qed.

(** C10, as the code has it.  [lookupDefinition] writes to no object
    that exists when it is called and leaves both stores as they are.
    An exact key wins: the entry stored under the word is returned
    itself, with the session untouched.  A word that is no key but the
    name of a property every object inherits gets the inherited value,
    a built-in.  Failing both, for a word longer than one code unit
    whose form without the last one is a key, the result is a new
    object with the properties of the stored entry plus [hasVariant]
    and [variantNote], the stored entry not being written to; when the
    shorter form is only an inherited name, the new object has the two
    variant properties alone.  In every other case the result is
    null. *)
Theorem lookupDefinition_frame (geez : jsstring) (s : Session) :
  let '(r, s') := lookupDefinition geez s in
  (geezDefs s' = geezDefs s /\ wordData s' = wordData s /\
   forall (l : nat) (o : Obj), heap s !! l = Some o -> heap s' !! l = Some o) /\
  match geezDefs s with
  | None => r = None /\ s' = s
  | Some defs =>
      match defs !! geez with
      | Some l => r = Some (At l) /\ s' = s
      | None =>
          if bool_decide (geez ∈ objectPrototypeKeys)
          then r = Some (Builtin geez) /\ s' = s
          else
            match Spec.variantKey geez with
            | Some trimmed =>
                match defs !! trimmed with
                | Some l =>
                    r = Some (At (length (heap s))) /\
                    heap s' = heap s ++ [Spec.variantOf (objectAt s l)]
                | None =>
                    if bool_decide (trimmed ∈ objectPrototypeKeys)
                    then r = Some (At (length (heap s))) /\
                         heap s' = heap s ++ [Spec.variantOf ∅]
                    else r = None /\ s' = s
                end
            | None => r = None /\ s' = s
            end
      end
  end.
Proof.
  rewrite lookupDefinition_spec.
  destruct (geezDefs s) as [defs |] eqn:Hd; [| now auto].
  rewrite readKey_cases.
  destruct (defs !! geez) as [l |]; [now auto |].
  destruct (bool_decide (geez ∈ objectPrototypeKeys)); [now auto |].
  destruct (Spec.variantKey geez) as [trimmed |]; cbn [mbind option_bind]; [| now auto].
  rewrite readKey_cases.
  assert (Hframe : forall o' : Obj,
            forall (l : nat) (o : Obj), heap s !! l = Some o ->
              (heap s ++ [o']) !! l = Some o)
    by (intros o' l' o Hl; now apply lookup_app_l_Some).
  destruct (defs !! trimmed) as [l |].
  - cbn [heap geezDefs wordData ownProperties]. repeat split; auto.
  - destruct (bool_decide (trimmed ∈ objectPrototypeKeys)); [| now auto].
    cbn [heap geezDefs wordData ownProperties]. repeat split; auto.
Qed.

(** On a store with the entry of U+1230 U+120B U+121D: the word itself
    gets the stored entry and nothing changes; the word with one more
    character gets a copy at a new address, with the two variant
    properties, and the stored entry still has neither; the stored
    transliteration wins over the computed one. *)
Example lookupDefinition_on_store :
  lookupDefinition Sample.selam Sample.defsSession = (Some (At 0), Sample.defsSession) /\
  fst (lookupDefinition (Sample.selam ++ [0x1275]) Sample.defsSession) = Some (At 1) /\
  heap (snd (lookupDefinition (Sample.selam ++ [0x1275]) Sample.defsSession)) =
    [Sample.storedEntry; Spec.variantOf Sample.storedEntry] /\
  Sample.storedEntry !! lit "hasVariant" = None /\
  lookupDefinition [0x1230] Sample.defsSession = (None, Sample.defsSession) /\
  getWordTranslit Sample.defsSession Sample.selam = VString (lit "salam") /\
  getWordTranslit Sample.defsSession [0x1200; 32] = VString (lit "ha ").
Proof. repeat split; vm_compute; reflexivity. Qed.

(** C10, where the sentence fails: "constructor" is no key of the store
    and neither is "constructo", yet the lookup of "constructor" does
    not return null but the function every object has under that name,
    and the lookup of "constructorx" returns a new object with the two
    variant properties and nothing else. *)
Lemma lookupDefinition_inherited_key :
  geezDefs Sample.defsSession = Some {[ Sample.selam := 0%nat ]} /\
  ({[ Sample.selam := 0%nat ]} : gmap jsstring nat) !! lit "constructor" = None /\
  ({[ Sample.selam := 0%nat ]} : gmap jsstring nat) !! lit "constructo" = None /\
  lookupDefinition (lit "constructor") Sample.defsSession =
    (Some (Builtin (lit "constructor")), Sample.defsSession) /\
  fst (lookupDefinition (lit "constructorx") Sample.defsSession) = Some (At 1) /\
  heap (snd (lookupDefinition (lit "constructorx") Sample.defsSession)) =
    [Sample.storedEntry; Spec.variantOf ∅].
Proof. repeat split; vm_compute; reflexivity. Qed.

End WordModalFacts.

(** ** The query engine: properties *)

Section SearchFacts.
Import Search.
Variable toLowerCase : jsstring -> jsstring.
Variable canonicalize : Z -> Z.

Lemma fold_left_push {A B} (f : A -> option B) (step : list B -> A -> list B) :
  (forall acc x, step acc x = acc ++ option_list (f x)) ->
  forall l acc, fold_left step l acc = acc ++ omap f l.
Proof.
  intros Hstep l. induction l as [| x l IH]; intros acc; cbn.
  - now rewrite app_nil_r.
  - rewrite IH, Hstep. destruct (f x); cbn; now rewrite <- app_assoc.
Qed.

Lemma omap_guard {A} (b : A -> bool) (l : list A) :
  omap (fun x => if b x then Some x else None) l = List.filter b l.
Proof. induction l as [| x l IH]; cbn; [reflexivity |]. destruct (b x); cbn; now rewrite IH. Qed.

Lemma orElse_empty (o : option jsstring) : orElse o [] = default [] o.
Proof. destruct o as [[| c s] |]; reflexivity. Qed.

Lemma classify_latin (query q geez : jsstring) (d : LexiconEntry) :
  classify toLowerCase false query q geez d =
  match Spec.firstMatchingField toLowerCase q d with
  | Some label => (true, label)
  | None => (false, [])
  end.
Proof.
  unfold classify, Spec.firstMatchingField, Spec.fields, Spec.fieldText.
  cbn [andb negb find snd fst]. rewrite !orElse_empty.
  repeat (destruct (includes _ q); [reflexivity |]). reflexivity.
Qed.

Lemma classify_geez (query q geez : jsstring) (d : LexiconEntry) :
  classify toLowerCase true query q geez d =
  if includes geez query then (true, lit "Ge'ez match") else (false, []).
Proof. unfold classify. cbn [andb negb]. destruct (includes geez query); reflexivity. Qed.

Lemma searchWords_latin (index : SearchIndex) (query q : jsstring) :
  searchWords toLowerCase index false query q =
  omap (Spec.latinWordMatch toLowerCase q) (words index).
Proof.
  unfold searchWords. rewrite (fold_left_push (Spec.latinWordMatch toLowerCase q)); [reflexivity |].
  intros acc [g d]. rewrite classify_latin. unfold Spec.latinWordMatch. cbn [fst snd].
  destruct (Spec.firstMatchingField toLowerCase q d); cbn; [reflexivity | now rewrite app_nil_r].
Qed.

Lemma searchWords_geez (index : SearchIndex) (query q : jsstring) :
  searchWords toLowerCase index true query q =
  omap (Spec.geezWordMatch query) (words index).
Proof.
  unfold searchWords. rewrite (fold_left_push (Spec.geezWordMatch query)); [reflexivity |].
  intros acc [g d]. rewrite classify_geez. unfold Spec.geezWordMatch. cbn [fst snd].
  destruct (includes g query); cbn; [reflexivity | now rewrite app_nil_r].
Qed.

Lemma searchVerses_latin (index : SearchIndex) (q : jsstring) :
  searchVerses toLowerCase index false q =
  List.filter (fun v => includes (toLowerCase (english v)) q) (verses index).
Proof.
  unfold searchVerses. cbn [negb]. rewrite <- omap_guard.
  rewrite (fold_left_push (fun v => if includes (toLowerCase (english v)) q then Some v else None));
    [reflexivity |].
  intros acc v. destruct (includes _ q); cbn; [reflexivity | now rewrite app_nil_r].
Qed.

Lemma searchGematria_digits (index : SearchIndex) (query : jsstring) :
  searchGematria index query =
  if allDigits query then omap (Spec.gematriaMatch (parseInt query)) (words index) else [].
Proof.
  unfold searchGematria. destruct (allDigits query); [| reflexivity].
  rewrite (fold_left_push (Spec.gematriaMatch (parseInt query))); [reflexivity |].
  intros acc [g d]. unfold Spec.gematriaMatch. cbn [fst snd].
  destruct (bool_decide _); cbn; [reflexivity | now rewrite app_nil_r].
Qed.

Lemma performSearch_short (env : Env) (query : jsstring) (s : Session) :
  (length query < 2)%nat ->
  performSearch toLowerCase canonicalize env query s =
  (Returned {| outcome := TooShort; html := tooShortHtml |}, s).
Proof.
  intros Hlen. unfold performSearch.
  replace (length query <? 2)%nat with true by (symmetry; apply Nat.ltb_lt; lia).
  now rewrite orb_true_r.
Qed.

Lemma performSearch_long (env : Env) (query : jsstring) (s : Session) :
  (2 <= length query)%nat ->
  performSearch toLowerCase canonicalize env query s =
  match loadSearchIndex env s with
  | (Returned None, s') =>
      (Returned {| outcome := IndexUnavailable; html := unavailableHtml |}, s')
  | (Returned (Some index), s') =>
      let q := toLowerCase query in
      let isGeez := isGeezQuery query in
      let wordMatches := searchWords toLowerCase index isGeez query q in
      let verseMatches := searchVerses toLowerCase index isGeez q in
      let gematriaMatches := searchGematria index query in
      (Returned {| outcome := Searched wordMatches verseMatches gematriaMatches;
                   html := renderResults canonicalize env index query q
                             wordMatches verseMatches gematriaMatches |}, s')
  | (Thrown, s') => (Thrown, s')
  end.
Proof.
  intros Hlen. unfold performSearch.
  rewrite truthy_length by lia.
  replace (length query <? 2)%nat with false by (symmetry; apply Nat.ltb_ge; lia).
  cbn [negb orb]. unfold bind at 1.
  destruct (loadSearchIndex env s) as [[[index |] |] s']; reflexivity.
Qed.

(** [loadSearchIndex] catches what its requests throw. *)
Lemma loadSearchIndex_returns (env : Env) (s : Session) :
  exists r s', loadSearchIndex env s = (Returned r, s').
Proof.
  unfold loadSearchIndex, bind, getIndex, tryCatch, fetchJson, setIndex, consoleError, ret.
  destruct (searchIndex s); [eauto |].
  destruct (search_index_json env); [| eauto].
  destruct (wordData env); [eauto |].
  cbn. destruct (words_json env); eauto.
Qed.

Lemma onSearchInput_long (env : Env) (value : jsstring) (s s' : Session)
    (index : SearchIndex) :
  (2 <= length (trim value))%nat ->
  loadSearchIndex env s = (Returned (Some index), s') ->
  onSearchInput toLowerCase canonicalize env value s =
  (Returned
     {| outcome :=
          Searched
            (searchWords toLowerCase index (isGeezQuery (trim value)) (trim value)
               (toLowerCase (trim value)))
            (searchVerses toLowerCase index (isGeezQuery (trim value))
               (toLowerCase (trim value)))
            (searchGematria index (trim value));
        html :=
          renderResults canonicalize env index (trim value) (toLowerCase (trim value))
            (searchWords toLowerCase index (isGeezQuery (trim value)) (trim value)
               (toLowerCase (trim value)))
            (searchVerses toLowerCase index (isGeezQuery (trim value))
               (toLowerCase (trim value)))
            (searchGematria index (trim value)) |}, s').
Proof.
  intros Hlen Hload. unfold onSearchInput.
  rewrite performSearch_long by exact Hlen. now rewrite Hload.
Qed.

Lemma find_first {A} (f : A -> bool) (l : list A) (x : A) :
  find f l = Some x <->
  exists before after,
    l = before ++ x :: after /\ f x = true /\ Forall (fun y => f y = false) before.
Proof.
  induction l as [| y l IH]; cbn.
  - split; [discriminate | intros (b & a & H & _); destruct b; discriminate].
  - destruct (f y) eqn:Hy.
    + split.
      * intros [= <-]. exists [], l. auto.
      * intros ([| z b] & a & Heq & Hx & Hb).
        -- now injection Heq as ->.
        -- injection Heq as -> _. inversion Hb; congruence.
    + rewrite IH. split.
      * intros (b & a & -> & Hx & Hb). exists (y :: b), a. auto.
      * intros ([| z b] & a & Heq & Hx & Hb).
        -- injection Heq as -> _. congruence.
        -- injection Heq as -> ->. inversion Hb; subst. eauto.
Qed.

(** C6. A query whose trimmed length is below 2 (the empty string, a
    single Ethiopic character) gets the hint of the TooShort exit,
    whatever the environment and the session hold; nothing is requested
    and the session is left as it was. *)
Theorem short_query_too_short (env : Env) (value : jsstring) (s : Session) :
  (length (trim value) < 2)%nat ->
  onSearchInput toLowerCase canonicalize env value s =
  (Returned {| outcome := TooShort; html := tooShortHtml |}, s).
Proof. intros Hlen. unfold onSearchInput. now apply performSearch_short. Qed.

(** C7. A query is script-native exactly when one of its code units is
    in the Ethiopic range 0x1200..0x137F.  A script-native query has no
    verse matches and matches the lexicon keys that hold the query
    itself; a Latin query matches the verses whose English text, in
    lower case, holds the query in lower case.  Containment is
    occurrence as a run of consecutive code units. *)
Theorem script_classification (env : Env) (value : jsstring) (s s' : Session)
    (index : SearchIndex) :
  (2 <= length (trim value))%nat ->
  loadSearchIndex env s = (Returned (Some index), s') ->
  (isGeezQuery (trim value) = true <->
     Exists (fun c => 0x1200 <= c <= 0x137F) (trim value)) /\
  (forall text p, includes text p = true <-> Spec.occursIn p text) /\
  exists wm vm gm page,
    onSearchInput toLowerCase canonicalize env value s =
      (Returned {| outcome := Searched wm vm gm; html := page |}, s') /\
    if isGeezQuery (trim value)
    then vm = [] /\ wm = omap (Spec.geezWordMatch (trim value)) (words index)
    else vm = List.filter
                (fun v => includes (toLowerCase (english v)) (toLowerCase (trim value)))
                (verses index).
Proof.
  intros Hlen Hload. split; [| split].
  - unfold isGeezQuery. rewrite existsb_exists, List.Exists_exists.
    split; intros (c & Hin & Hc); exists c; (split; [exact Hin |]).
    + apply andb_true_iff in Hc. rewrite !Z.leb_le in Hc. exact Hc.
    + apply andb_true_iff. now rewrite !Z.leb_le.
  - apply includes_spec.
  - rewrite (onSearchInput_long env value s s' index Hlen Hload).
    do 4 eexists. split; [reflexivity |].
    destruct (isGeezQuery (trim value)).
    + split; [reflexivity | apply searchWords_geez].
    + apply searchVerses_latin.
Qed.

(** C2. For a Latin query of trimmed length at least 2, the word matches
    are, in the order of the lexicon, the entries with a first matching
    field, each reported with the label of that field.  An entry has one
    exactly when the query in lower case occurs in one of definition,
    english_definition, transliteration, root (in lower case, a missing
    field empty); the label is that of the first such field in this
    order, so a match in the definition is reported as Definition
    whatever the root holds. *)
Theorem latin_word_match (env : Env) (value : jsstring) (s s' : Session)
    (index : SearchIndex) :
  (2 <= length (trim value))%nat ->
  isGeezQuery (trim value) = false ->
  loadSearchIndex env s = (Returned (Some index), s') ->
  let q := toLowerCase (trim value) in
  (exists wm vm gm page,
     onSearchInput toLowerCase canonicalize env value s =
       (Returned {| outcome := Searched wm vm gm; html := page |}, s') /\
     wm = omap (Spec.latinWordMatch toLowerCase q) (words index) /\
     forall entry label, In entry (words index) ->
       (In {| geez := fst entry; data := snd entry; matchType := label |} wm <->
        Spec.firstMatchingField toLowerCase q (snd entry) = Some label)) /\
  (forall d,
     is_Some (Spec.firstMatchingField toLowerCase q d) <->
     Exists (fun f => Spec.occursIn q (Spec.fieldText toLowerCase (snd f) d))
            Spec.fields) /\
  (forall d label,
     Spec.firstMatchingField toLowerCase q d = Some label <->
     exists before f after,
       Spec.fields = before ++ f :: after /\ fst f = label /\
       Spec.occursIn q (Spec.fieldText toLowerCase (snd f) d) /\
       Forall (fun f' => ~ Spec.occursIn q (Spec.fieldText toLowerCase (snd f') d))
              before) /\
  (forall d,
     Spec.occursIn q (Spec.fieldText toLowerCase definition d) ->
     Spec.firstMatchingField toLowerCase q d = Some (lit "Definition")).
Proof.
  intros Hlen Hlatin Hload q.
  assert (Hfirst : forall d label,
     Spec.firstMatchingField toLowerCase q d = Some label <->
     exists before f after,
       Spec.fields = before ++ f :: after /\ fst f = label /\
       Spec.occursIn q (Spec.fieldText toLowerCase (snd f) d) /\
       Forall (fun f' => ~ Spec.occursIn q (Spec.fieldText toLowerCase (snd f') d))
              before).
  { intros d label. unfold Spec.firstMatchingField. rewrite fmap_Some. split.
    - intros (f & Hf & ->). apply find_first in Hf as (b & a & Heq & Hx & Hb).
      exists b, f, a. repeat split; auto.
      + now apply includes_spec.
      + eapply Forall_impl; [exact Hb |]. cbn. intros f' Hf'.
        rewrite <- includes_spec. congruence.
    - intros (b & f & a & Heq & Hl & Hx & Hb). exists f. split; [| now auto].
      apply find_first. exists b, a. repeat split; auto.
      + now apply includes_spec.
      + eapply Forall_impl; [exact Hb |]. cbn. intros f' Hf'.
        rewrite <- includes_spec in Hf'. now destruct (includes _ q). }
  split; [| split; [| split]].
  - rewrite (onSearchInput_long env value s s' index Hlen Hload).
    do 4 eexists. split; [reflexivity |]. rewrite Hlatin, searchWords_latin.
    split; [reflexivity |]. intros entry label Hin.
    rewrite <- list_elem_of_In, list_elem_of_omap. unfold Spec.latinWordMatch. split.
    + intros (e & _ & He). apply fmap_Some in He as (l & Hl & Heq).
      injection Heq as _ Hd Hlabel. now rewrite Hd, Hlabel.
    + intros Hl. exists entry. split; [now apply list_elem_of_In |].
      unfold q in Hl. now rewrite Hl.
  - intros d. unfold Spec.firstMatchingField. rewrite fmap_is_Some, List.Exists_exists.
    split.
    + intros [f Hf]. apply find_some in Hf as [Hin Hf]. exists f.
      split; [exact Hin | now apply includes_spec].
    + intros (f & Hin & Hf). apply includes_spec in Hf.
      destruct (find _ Spec.fields) as [f' |] eqn:Hnone; [eauto |].
      rewrite (find_none _ _ Hnone f Hin) in Hf. discriminate.
  - exact Hfirst.
  - intros d Hd. apply Hfirst.
    exists [], (lit "Definition", definition), (tl Spec.fields).
    repeat split; auto.
Qed.

Lemma fold_left_steps {A} (step : jsstring -> A -> jsstring) :
  (forall acc x, step acc x = acc ++ step [] x) ->
  forall l acc, fold_left step l acc = acc ++ concat (map (step []) l).
Proof.
  intros Hstep l. induction l as [| x l IH]; intros acc; cbn.
  - now rewrite app_nil_r.
  - rewrite IH, Hstep. now rewrite <- app_assoc.
Qed.

Lemma renderWord_app (index : SearchIndex) (base html : jsstring) (wm : WordMatch) :
  renderWord index base html wm = html ++ renderWord index base [] wm.
Proof.
  unfold renderWord.
  rewrite !(fold_left_steps
              (fun html loc =>
                 html ++ anchor (verseHref base loc) (lit "search-verse-link") loc))
    by (intros; reflexivity).
  cbn [app]. now rewrite <- !app_assoc.
Qed.

Lemma renderVerse_app (base q html : jsstring) (vm : VerseRecord) :
  renderVerse canonicalize base q html vm =
  html ++ renderVerse canonicalize base q [] vm.
Proof. reflexivity. Qed.

Lemma renderGematriaMatch_app (html : jsstring) (gm : GematriaMatch) :
  renderGematriaMatch html gm = html ++ renderGematriaMatch [] gm.
Proof. reflexivity. Qed.

Lemma renderWords_section (index : SearchIndex) (base html : jsstring)
    (wm : list WordMatch) :
  renderWords index base wm html =
  html ++ Spec.wordsSection index base (take 50 wm) (length wm).
Proof.
  unfold renderWords, Spec.wordsSection, Spec.moreNote.
  destruct (0 <? length wm)%nat; [| now rewrite app_nil_r].
  rewrite (fold_left_steps (renderWord index base)) by apply renderWord_app.
  change (Z.of_nat 50) with 50.
  destruct (50 <? length wm)%nat; rewrite <- ?app_assoc, ?app_nil_r; reflexivity.
Qed.

Lemma renderVerses_section (base q html : jsstring) (vm : list VerseRecord) :
  renderVerses canonicalize base q vm html =
  html ++ Spec.versesSection canonicalize base q (take 30 vm) (length vm).
Proof.
  unfold renderVerses, Spec.versesSection, Spec.moreNote.
  destruct (0 <? length vm)%nat; [| now rewrite app_nil_r].
  rewrite (fold_left_steps (renderVerse canonicalize base q)) by apply renderVerse_app.
  change (Z.of_nat 30) with 30.
  destruct (30 <? length vm)%nat; rewrite <- ?app_assoc, ?app_nil_r; reflexivity.
Qed.

Lemma renderGematria_section (query html : jsstring) (gm : list GematriaMatch) :
  renderGematria query gm html =
  html ++ Spec.gematriaSection query gm (length gm).
Proof.
  unfold renderGematria, Spec.gematriaSection.
  destruct (0 <? length gm)%nat; [| now rewrite app_nil_r].
  rewrite (fold_left_steps renderGematriaMatch) by apply renderGematriaMatch_app.
  now rewrite <- !app_assoc.
Qed.

Lemma renderResults_page (env : Env) (index : SearchIndex) (query q : jsstring)
    (wm : list WordMatch) (vm : list VerseRecord) (gm : list GematriaMatch) :
  renderResults canonicalize env index query q wm vm gm =
  Spec.page canonicalize env index query q
    (take 50 wm) (length wm) (take 30 vm) (length vm) gm (length gm).
Proof.
  unfold renderResults, Spec.page.
  rewrite renderGematria_section, renderVerses_section, renderWords_section.
  set (total := (length wm + length vm + length gm)%nat).
  destruct (total =? 0)%nat eqn:Ht.
  - apply Nat.eqb_eq in Ht.
    assert (Hw : length wm = 0%nat) by lia.
    assert (Hv : length vm = 0%nat) by lia.
    assert (Hg : length gm = 0%nat) by lia.
    rewrite Hw, Hv, Hg. cbn [Nat.eqb andb].
    replace (0 <? total)%nat with false by (symmetry; apply Nat.ltb_ge; lia).
    reflexivity.
  - apply Nat.eqb_neq in Ht.
    replace (0 <? total)%nat with true by (symmetry; apply Nat.ltb_lt; lia).
    replace ((length wm =? 0)%nat && (length vm =? 0)%nat && (length gm =? 0)%nat)
      with false.
    + cbn [app]. now rewrite <- !app_assoc.
    + symmetry. rewrite !andb_false_iff, !Nat.eqb_neq. lia.
Qed.

Lemma omap_sublist_map {A B C} (f : A -> option B) (g : B -> C) (h : A -> C)
    (l : list A) :
  (forall x y, f x = Some y -> g y = h x) ->
  sublist (map g (omap f l)) (map h l).
Proof.
  intros Hfg. induction l as [| x l IH]; cbn; [constructor |].
  destruct (f x) as [y |] eqn:Hy; cbn.
  - rewrite (Hfg x y Hy). now constructor.
  - now constructor.
Qed.

Lemma filter_sublist {A} (b : A -> bool) (l : list A) : sublist (List.filter b l) l.
Proof.
  induction l as [| x l IH]; cbn; [constructor |].
  destruct (b x); now constructor.
Qed.

Lemma searchWords_order (index : SearchIndex) (isGeez : bool) (query q : jsstring) :
  sublist (map geez (searchWords toLowerCase index isGeez query q))
          (map fst (words index)).
Proof.
  destruct isGeez; [rewrite searchWords_geez | rewrite searchWords_latin];
    apply omap_sublist_map; intros [g d] y.
  - unfold Spec.geezWordMatch. cbn [fst snd].
    destruct (includes g query); [intros [= <-]; reflexivity | discriminate].
  - unfold Spec.latinWordMatch. cbn [fst snd].
    destruct (Spec.firstMatchingField toLowerCase q d); [intros [= <-]; reflexivity | discriminate].
Qed.

Lemma searchVerses_order (index : SearchIndex) (isGeez : bool) (q : jsstring) :
  sublist (searchVerses toLowerCase index isGeez q) (verses index).
Proof.
  destruct isGeez; [apply sublist_nil_l |].
  rewrite searchVerses_latin. apply filter_sublist.
Qed.

Lemma searchGematria_order (index : SearchIndex) (query : jsstring) :
  sublist (map gm_geez (searchGematria index query)) (map fst (words index)).
Proof.
  rewrite searchGematria_digits. destruct (allDigits query); [| apply sublist_nil_l].
  apply omap_sublist_map. intros [g d] y. unfold Spec.gematriaMatch. cbn [fst snd].
  destruct (bool_decide _); [intros [= <-]; reflexivity | discriminate].
Qed.

(** C4. The page of a query shows the first 50 of the word matches and
    the first 30 of the verse matches, and all the gematria matches;
    each section is headed by the number of matches found, before any
    cut, and the summary by their sum.  With 60 word matches 50 are
    shown.  Each list follows the order of the lexicon or of the verses
    it is drawn from. *)
Theorem results_truncation (env : Env) (value : jsstring) (s s' : Session)
    (index : SearchIndex) :
  (2 <= length (trim value))%nat ->
  loadSearchIndex env s = (Returned (Some index), s') ->
  exists wm vm gm,
    onSearchInput toLowerCase canonicalize env value s =
      (Returned
         {| outcome := Searched wm vm gm;
            html := Spec.page canonicalize env index (trim value)
                      (toLowerCase (trim value))
                      (take 50 wm) (length wm) (take 30 vm) (length vm)
                      gm (length gm) |}, s') /\
    length (take 50 wm) = Nat.min 50 (length wm) /\
    length (take 30 vm) = Nat.min 30 (length vm) /\
    (length wm = 60%nat -> length (take 50 wm) = 50%nat) /\
    sublist (map geez wm) (map fst (words index)) /\
    sublist vm (verses index) /\
    sublist (map gm_geez gm) (map fst (words index)).
Proof.
  intros Hlen Hload.
  rewrite (onSearchInput_long env value s s' index Hlen Hload).
  do 3 eexists. split; [| split; [| split; [| split; [| split; [| split]]]]].
  - rewrite renderResults_page. reflexivity.
  - apply length_take.
  - apply length_take.
  - intros H60. rewrite length_take, H60. reflexivity.
  - apply searchWords_order.
  - apply searchVerses_order.
  - apply searchGematria_order.
Qed.

Lemma gematriaMatch_In (num : Number) (entry : jsstring * LexiconEntry)
    (lexicon : Lexicon) :
  In entry lexicon ->
  (In {| gm_geez := fst entry; gm_data := snd entry |}
      (omap (Spec.gematriaMatch num) lexicon) <->
   exists g, gematria (snd entry) = Some g /\ num = Finite g).
Proof.
  intros Hin. rewrite <- list_elem_of_In, list_elem_of_omap. split.
  - intros (e & _ & He). unfold Spec.gematriaMatch in He.
    case_bool_decide as Hg; [| discriminate]. injection He as _ <-.
    destruct (gematria (snd e)) as [g |]; [| discriminate].
    injection Hg as <-. eauto.
  - intros (g & Hg & ->). exists entry. split; [now apply list_elem_of_In |].
    unfold Spec.gematriaMatch. rewrite Hg. now rewrite bool_decide_eq_true_2.
Qed.

Lemma isDigit_not_space (c : Z) : isDigit c = true -> isWhiteSpace c = false.
Proof.
  unfold isDigit, isWhiteSpace. rewrite andb_true_iff, !Z.leb_le. intros Hc.
  apply not_true_iff_false. intros Hw.
  rewrite !orb_true_iff, ?andb_true_iff, ?Z.eqb_eq, ?Z.leb_le in Hw. lia.
Qed.

Lemma trim_digits (ds : jsstring) : forallb isDigit ds = true -> trim ds = ds.
Proof.
  intros Hd. rewrite forallb_forall in Hd. apply trim_keep.
  - destruct ds as [| c ds]; [exact I |]. apply isDigit_not_space, Hd. now left.
  - destruct (rev ds) as [| c r] eqn:Hr; [exact I |].
    apply isDigit_not_space, Hd, in_rev. rewrite Hr. now left.
Qed.

Lemma numberToString_head (n : Z) :
  exists c rest, numberToString n = c :: rest /\ isWhiteSpace c = false.
Proof.
  destruct (Z.ltb_spec n 0) as [Hneg | Hpos].
  - unfold numberToString. replace (n <? 0) with true by (symmetry; apply Z.ltb_lt; lia).
    eexists _, _. split; reflexivity.
  - destruct (numberToString_spec n Hpos) as (Hne & Hdig & _).
    destruct (numberToString n) as [| c rest]; [congruence |].
    exists c, rest. split; [reflexivity |].
    apply isDigit_not_space. cbn in Hdig. now apply andb_true_iff in Hdig.
Qed.

Lemma trim_number_x (n : Z) :
  trim (numberToString n ++ lit "x") = numberToString n ++ lit "x".
Proof.
  destruct (numberToString_head n) as (c & rest & -> & Hc).
  apply trim_keep; [exact Hc |].
  change (lit "x") with [120]. rewrite rev_unit. reflexivity.
Qed.

(** C3, as the engine has it.  For a query of trimmed length at least 2,
    the gematria pass runs exactly when the whole trimmed query is made
    of decimal digits, and its matches are the lexicon entries whose
    gematria is the number [parseInt] gives for the query: the integer
    the digits denote when that is a Number, else the Number nearest to
    it.  So the decimal string of g finds every entry with gematria g,
    for every Number g from 10 on, and that string followed by x, for
    any g, finds none; and the query 9007199254740993 finds the entries
    of gematria 9007199254740992. *)
Theorem gematria_exact_match (env : Env) (s s' : Session) (index : SearchIndex) :
  loadSearchIndex env s = (Returned (Some index), s') ->
  (forall value, (2 <= length (trim value))%nat ->
     exists wm vm gm page,
       onSearchInput toLowerCase canonicalize env value s =
         (Returned {| outcome := Searched wm vm gm; html := page |}, s') /\
       gm = (if allDigits (trim value)
             then omap (Spec.gematriaMatch (toDouble (decimalValue (trim value))))
                       (words index)
             else []) /\
       forall entry, In entry (words index) ->
         (In {| gm_geez := fst entry; gm_data := snd entry |} gm <->
          allDigits (trim value) = true /\
          exists g, gematria (snd entry) = Some g /\
                    toDouble (decimalValue (trim value)) = Finite g)) /\
  (forall g entry, 10 <= g -> toDouble g = Finite g -> In entry (words index) ->
     gematria (snd entry) = Some g ->
     exists wm vm gm page,
       onSearchInput toLowerCase canonicalize env (numberToString g) s =
         (Returned {| outcome := Searched wm vm gm; html := page |}, s') /\
       In {| gm_geez := fst entry; gm_data := snd entry |} gm) /\
  (forall g,
     exists wm vm page,
       onSearchInput toLowerCase canonicalize env (numberToString g ++ lit "x") s =
         (Returned {| outcome := Searched wm vm []; html := page |}, s')) /\
  (forall entry, In entry (words index) ->
     gematria (snd entry) = Some 9007199254740992 ->
     exists wm vm gm page,
       onSearchInput toLowerCase canonicalize env (lit "9007199254740993") s =
         (Returned {| outcome := Searched wm vm gm; html := page |}, s') /\
       In {| gm_geez := fst entry; gm_data := snd entry |} gm).
Proof.
  intros Hload.
  split; [| split; [| split]].
  - intros value Hlen.
    rewrite (onSearchInput_long env value s s' index Hlen Hload).
    do 4 eexists. split; [reflexivity |]. split; [apply searchGematria_digits |].
    intros entry Hin. rewrite searchGematria_digits.
    destruct (allDigits (trim value)).
    + unfold parseInt. rewrite (gematriaMatch_In _ entry _ Hin). intuition.
    + cbn [In]. intuition discriminate.
  - intros g entry Hg Hdouble Hin Hgem.
    destruct (numberToString_spec g ltac:(lia)) as (Hne & Hdig & Hval & Hlen).
    pose proof (trim_digits _ Hdig) as Htrim.
    assert (Hlen' : (2 <= length (trim (numberToString g)))%nat)
      by (rewrite Htrim; apply Hlen; lia).
    rewrite (onSearchInput_long env _ s s' index Hlen' Hload).
    do 4 eexists. split; [reflexivity |].
    rewrite searchGematria_digits, Htrim. unfold allDigits, parseInt.
    rewrite Hdig, Hval. destruct (numberToString g); [congruence |]. cbn [truthy andb].
    apply (gematriaMatch_In _ entry _ Hin). eauto.
  - intros g.
    assert (Hlen' : (2 <= length (trim (numberToString g ++ lit "x")))%nat).
    { rewrite trim_number_x. destruct (numberToString_head g) as (c & rest & -> & _).
      rewrite length_app. cbn. lia. }
    rewrite (onSearchInput_long env _ s s' index Hlen' Hload).
    do 3 eexists. f_equal. f_equal. f_equal.
    rewrite searchGematria_digits, trim_number_x. unfold allDigits.
    rewrite forallb_app. change (forallb isDigit (lit "x")) with false.
    now rewrite andb_false_r, andb_false_r.
  - intros entry Hin Hgem.
    assert (Htrim : trim (lit "9007199254740993") = lit "9007199254740993")
      by (apply trim_digits; reflexivity).
    assert (Hlen' : (2 <= length (trim (lit "9007199254740993")))%nat)
      by (rewrite Htrim; cbn; lia).
    rewrite (onSearchInput_long env _ s s' index Hlen' Hload).
    do 4 eexists. split; [reflexivity |].
    rewrite searchGematria_digits, Htrim.
    change (allDigits (lit "9007199254740993")) with true. cbv iota.
    apply (gematriaMatch_In _ entry _ Hin). exists 9007199254740992.
    split; [exact Hgem | vm_compute; reflexivity].
Qed.






End SearchFacts.

(** ** The query engine on the example *)

Section Instances.

Import Search.

Local Abbreviation run := (onSearchInput asciiToLowerCase asciiCanonicalize).

Lemma sample_load :
  loadSearchIndex Sample.env Sample.fresh = (Returned (Some Sample.index), Sample.loaded).
Proof. reflexivity. Qed.

(** The end-to-end example of the specification: "peace" finds the word
    by its definition, with the verse 1:1 among its locations, and the
    verse; "135" finds the word by gematria; a single Ethiopic character
    is too short. *)
Example end_to_end :
  (exists page,
     run Sample.env (lit "peace") Sample.fresh =
       (Returned
          {| outcome :=
               Searched
                 [{| geez := Sample.selam; data := Sample.peace;
                     matchType := lit "Definition" |}]
                 [Sample.verse11] [];
             html := page |}, Sample.loaded)) /\
  locationsOf Sample.index Sample.selam = [lit "1:1"] /\
  (exists page,
     run Sample.env (lit "135") Sample.fresh =
       (Returned
          {| outcome :=
               Searched [] []
                 [{| gm_geez := Sample.selam; gm_data := Sample.peace |}];
             html := page |}, Sample.loaded)) /\
  run Sample.env [0x1230] Sample.fresh =
    (Returned {| outcome := TooShort; html := tooShortHtml |}, Sample.fresh).
Proof.
  repeat split; try (eexists; vm_compute; reflexivity); vm_compute; reflexivity.
Qed.

(** C6 on a single Ethiopic character between blanks. *)
Lemma short_query_too_short_witness :
  (length (trim [32; 0x1230; 32]%Z) < 2)%nat /\
  run Sample.env [32; 0x1230; 32] Sample.loaded =
    (Returned {| outcome := TooShort; html := tooShortHtml |}, Sample.loaded).
Proof.
  split; [vm_compute; lia | apply short_query_too_short; vm_compute; lia].
Defined.

(** C7 on a script-native query of two characters. *)
Lemma script_classification_witness :
  (2 <= length (trim [0x120B; 0x121D]%Z))%nat /\
  loadSearchIndex Sample.env Sample.fresh = (Returned (Some Sample.index), Sample.loaded) /\
  exists wm vm gm page,
    run Sample.env [0x120B; 0x121D] Sample.fresh =
      (Returned {| outcome := Searched wm vm gm; html := page |}, Sample.loaded) /\
    vm = [] /\
    wm = omap (Spec.geezWordMatch (trim [0x120B; 0x121D])) (words Sample.index).
Proof.
  assert (Hlen : (2 <= length (trim [0x120B; 0x121D]%Z))%nat) by (vm_compute; lia).
  split; [exact Hlen |]. split; [reflexivity |].
  destruct (script_classification asciiToLowerCase asciiCanonicalize
              Sample.env [0x120B; 0x121D] Sample.fresh Sample.loaded Sample.index
              Hlen eq_refl) as (_ & _ & wm & vm & gm & page & Hrun & Hcase).
  exists wm, vm, gm, page. split; [exact Hrun | exact Hcase].
Defined.

(** C2 on a Latin query in upper case. *)
Lemma latin_word_match_witness :
  (2 <= length (trim (lit " PEACE ")))%nat /\
  isGeezQuery (trim (lit " PEACE ")) = false /\
  loadSearchIndex Sample.env Sample.fresh = (Returned (Some Sample.index), Sample.loaded) /\
  exists wm vm gm page,
    run Sample.env (lit " PEACE ") Sample.fresh =
      (Returned {| outcome := Searched wm vm gm; html := page |}, Sample.loaded) /\
    wm = [{| geez := Sample.selam; data := Sample.peace; matchType := lit "Definition" |}].
Proof.
  assert (Hlen : (2 <= length (trim (lit " PEACE ")))%nat) by (vm_compute; lia).
  split; [exact Hlen |]. split; [reflexivity |]. split; [reflexivity |].
  destruct (latin_word_match asciiToLowerCase asciiCanonicalize
              Sample.env (lit " PEACE ") Sample.fresh Sample.loaded Sample.index
              Hlen eq_refl eq_refl) as ((wm & vm & gm & page & Hrun & Hwm & _) & _).
  exists wm, vm, gm, page. split; [exact Hrun | exact Hwm].
Defined.

(** C3 on the gematria of the example, 135. *)
Lemma gematria_exact_match_witness :
  loadSearchIndex Sample.env Sample.fresh = (Returned (Some Sample.index), Sample.loaded) /\
  (exists wm vm gm page,
     run Sample.env (numberToString 135) Sample.fresh =
       (Returned {| outcome := Searched wm vm gm; html := page |}, Sample.loaded) /\
     In {| gm_geez := Sample.selam; gm_data := Sample.peace |} gm) /\
  (exists wm vm page,
     run Sample.env (numberToString 135 ++ lit "x") Sample.fresh =
       (Returned {| outcome := Searched wm vm []; html := page |}, Sample.loaded)).
Proof.
  split; [reflexivity |].
  destruct (gematria_exact_match asciiToLowerCase asciiCanonicalize
              Sample.env Sample.fresh Sample.loaded Sample.index eq_refl)
    as (_ & Hfound & Hnone & _).
  split.
  - apply (Hfound 135 (Sample.selam, Sample.peace));
      [lia | reflexivity | now left | reflexivity].
  - apply Hnone.
Defined.

(** C4 on the example. *)
Lemma results_truncation_witness :
  (2 <= length (trim (lit "peace")))%nat /\
  loadSearchIndex Sample.env Sample.fresh = (Returned (Some Sample.index), Sample.loaded) /\
  exists wm vm gm,
    run Sample.env (lit "peace") Sample.fresh =
      (Returned
         {| outcome := Searched wm vm gm;
            html := Spec.page asciiCanonicalize Sample.env Sample.index
                      (trim (lit "peace")) (asciiToLowerCase (trim (lit "peace")))
                      (take 50 wm) (length wm) (take 30 vm) (length vm)
                      gm (length gm) |}, Sample.loaded).
Proof.
  assert (Hlen : (2 <= length (trim (lit "peace")))%nat) by (vm_compute; lia).
  split; [exact Hlen |]. split; [reflexivity |].
  destruct (results_truncation asciiToLowerCase asciiCanonicalize
              Sample.env (lit "peace") Sample.fresh Sample.loaded Sample.index
              Hlen eq_refl) as (wm & vm & gm & Hrun & _).
  exists wm, vm, gm. exact Hrun.
Defined.


(** C3, where the sentence fails: the word of gematria 7 is in the
    lexicon and "7" is all digits, but a query of one character is too
    short and the gematria pass does not run. *)
Lemma gematria_single_digit_unsearched :
  In (Sample.ze, Sample.this) (words Sample.index) /\
  gematria Sample.this = Some 7 /\
  allDigits (trim (numberToString 7)) = true /\
  run Sample.env (numberToString 7) Sample.loaded =
    (Returned {| outcome := TooShort; html := tooShortHtml |}, Sample.loaded).
Proof. repeat split. right. now left. Qed.


(** C5, where the engine misses it: the transliteration of an entry
    and the Ge'ez word go into the page as they are, markup included,
    while the definition beside them is escaped; and the highlight is
    placed on the escaped verse text, so that the query "amp" is marked
    inside the entity that stands for "&". *)
Example markup_not_escaped :
  let page := Sample.pageOf (run Sample.markedEnv (lit "peace") Sample.fresh) in
  let page' := Sample.pageOf (run Sample.markedEnv (lit "amp") Sample.fresh) in
  includes page (openTag "span" "search-trans" ++ lit "<b>salam</b></span>") = true /\
  includes page (escapeHtml (lit "<b>salam</b>")) = false /\
  escapeHtml (lit "<b>salam</b>") = lit "&lt;b&gt;salam&lt;/b&gt;" /\
  includes page'
    (openTag "div" "search-verse-text" ++ lit "C" ++ markOpen ++ lit "amp" ++
     markClose ++ lit " &" ++ markOpen ++ lit "amp" ++ markClose ++ lit "; fire</div>")
    = true.
Proof. vm_compute. auto. Qed.

(** The cap on sixty word matches: sixty are found and counted, fifty
    are shown, and the page says how many are left out. *)
Example sixty_matches_fifty_shown :
  let r := run Sample.sixtyEnv (lit "peace") Sample.fresh in
  (exists wm,
     Sample.matchesOf r = Some (wm, [], []) /\
     length wm = 60%nat /\ length (take 50 wm) = 50%nat /\
     Sample.pageOf r =
       Spec.page asciiCanonicalize Sample.sixtyEnv
         {| verses := []; words := Sample.sixty; stats := (0, 60, 0) |}
         (lit "peace") (lit "peace") (take 50 wm) 60 [] 0 [] 0) /\
  includes (Sample.pageOf r) (lit "Words (60)") = true /\
  includes (Sample.pageOf r) (lit "... and 10 more word matches") = true.
Proof.
  split; [| split; vm_compute; reflexivity].
  eexists. split; [vm_compute; reflexivity |].
  split; [reflexivity |]. split; [reflexivity |]. vm_compute. reflexivity.
Qed.

End Instances.

(** ** Transliteration: further properties *)

Section TransliterationMore.

Import Interlinear.

(** Induction along the cases of [stringIterator]. *)
Lemma stringIterator_cases (P : jsstring -> list jsstring -> Prop) :
  P [] [] ->
  (forall c, P [c] [[c]]) ->
  (forall c d rest,
     isLeadSurrogate c && isTrailSurrogate d = true ->
     P rest (stringIterator rest) ->
     P (c :: d :: rest) ([c; d] :: stringIterator rest)) ->
  (forall c d rest,
     isLeadSurrogate c && isTrailSurrogate d = false ->
     P (d :: rest) (stringIterator (d :: rest)) ->
     P (c :: d :: rest) ([c] :: stringIterator (d :: rest))) ->
  forall s, P s (stringIterator s).
Proof.
  intros Hnil Hone Hpair Hsingle.
  assert (Hb : forall n s, (length s <= n)%nat -> P s (stringIterator s)).
  { induction n as [| n IH]; intros s Hn.
    - destruct s; [exact Hnil | cbn in Hn; lia].
    - destruct s as [| c [| d rest]]; [exact Hnil | apply Hone |].
      change (stringIterator (c :: d :: rest))
        with (if isLeadSurrogate c && isTrailSurrogate d
              then [c; d] :: stringIterator rest
              else [c] :: stringIterator (d :: rest)).
      destruct (isLeadSurrogate c && isTrailSurrogate d) eqn:Hs.
      + apply Hpair; [exact Hs | apply IH; cbn in Hn |- *; lia].
      + apply Hsingle; [exact Hs | apply IH; cbn in Hn |- *; lia]. }
  intros s. now apply (Hb (length s)).
Qed.

Lemma stringIterator_characters (s : jsstring) :
  Forall Shape.isCharacter (stringIterator s).
Proof.
  apply (stringIterator_cases (fun _ chars => Forall Shape.isCharacter chars)).
  - constructor.
  - intros c. constructor; [left; eauto | constructor].
  - intros c d rest Hs IH. apply andb_true_iff in Hs as [Hc Hd].
    constructor; [right; eauto 6 | exact IH].
  - intros c d rest _ IH. constructor; [left; eauto | exact IH].
Qed.

Lemma rows_bases : Forall (fun r : Z * jsstring => 0x1200 <= fst r <= 0x1348) rows.
Proof. unfold rows. repeat constructor; cbn; lia. Qed.

Lemma rows_bases_list :
  map fst rows = map (fun i => 0x1200 + 8 * Z.of_nat i) (seq 0 42).
Proof. vm_compute. reflexivity. Qed.

(** The keys of the table are the code points 0x1200..0x134F. *)
Lemma table_domain (cp : Z) :
  is_Some (TRANSLIT_BASES !! cp) <-> 0x1200 <= cp <= 0x134F.
Proof.
  rewrite TRANSLIT_BASES_lookup. unfold Spec.table. split.
  - intros [syl Hs].
    destruct (find (Spec.covers cp) rows) as [[b c] |] eqn:Hf; [| discriminate].
    apply find_some in Hf as [Hin Hc]. apply covers_spec in Hc. cbn [fst] in Hc.
    pose proof rows_bases as Hb. rewrite List.Forall_forall in Hb.
    specialize (Hb _ Hin). cbn [fst] in Hb. lia.
  - intros Hcp.
    set (i := Z.to_nat ((cp - 0x1200) / 8)).
    assert (Hi : (i < 42)%nat).
    { subst i. apply Nat2Z.inj_lt. rewrite Z2Nat.id by (apply Z.div_pos; lia).
      apply Z.div_lt_upper_bound; lia. }
    assert (Hin : In (0x1200 + 8 * Z.of_nat i) (map fst rows)).
    { rewrite rows_bases_list. apply in_map_iff. exists i. split; [reflexivity |].
      apply in_seq. lia. }
    apply in_map_iff in Hin as ([b c] & Hb & Hin). cbn [fst] in Hb.
    destruct (find (Spec.covers cp) rows) as [[b' c'] |] eqn:Hf; [eauto |].
    pose proof (find_none _ _ Hf _ Hin) as Hno.
    assert (Hyes : Spec.covers cp (b, c) = true).
    { apply covers_spec. cbn [fst]. subst b i.
      rewrite Z2Nat.id by (apply Z.div_pos; lia).
      pose proof (Z.div_mod (cp - 0x1200) 8 ltac:(lia)).
      pose proof (Z.mod_pos_bound (cp - 0x1200) 8 ltac:(lia)). lia. }
    congruence.
Qed.

Lemma rows_ascii :
  Forall (fun r : Z * jsstring => Forall (fun c => 0 <= c < 128 /\ c <> 63) (snd r)) rows.
Proof. unfold rows. repeat constructor; cbn; lia. Qed.

Lemma syllable_ascii (cp : Z) (syl : jsstring) :
  TRANSLIT_BASES !! cp = Some syl ->
  Forall (fun c => 0 <= c < 128 /\ c <> 63) syl.
Proof.
  rewrite TRANSLIT_BASES_lookup. unfold Spec.table.
  destruct (find (Spec.covers cp) rows) as [[b c] |] eqn:Hf; [| discriminate].
  apply find_some in Hf as [Hin Hc]. apply covers_spec in Hc. cbn [fst] in Hc.
  pose proof rows_ascii as Ha. rewrite List.Forall_forall in Ha.
  specialize (Ha _ Hin). cbn [snd] in Ha.
  intros [= <-]. unfold Spec.syllable.
  assert (Hk : cp - b = 0 \/ cp - b = 1 \/ cp - b = 2 \/ cp - b = 3 \/
               cp - b = 4 \/ cp - b = 5 \/ cp - b = 6 \/ cp - b = 7) by lia.
  repeat (destruct Hk as [Hk | Hk]); rewrite Hk; cbn [Z.eqb Pos.eqb Spec.vowelSuffix];
    apply Forall_app; (split; [exact Ha | repeat constructor; cbn; lia]).
Qed.

Lemma segment_plain (ch : jsstring) :
  Shape.isCharacter ch -> Forall (fun c => ~ Shape.ethiopic c) ch -> Spec.segment ch = ch.
Proof.
  unfold Shape.ethiopic. intros [[c ->] | (c & d & -> & Hc & Hd)] Hall; unfold Spec.segment; cbn [codePointAt0].
  - inversion Hall as [| ? ? Hn _]; subst.
    destruct (TRANSLIT_BASES !! c) as [syl |] eqn:Hs.
    + assert (is_Some (TRANSLIT_BASES !! c)) as Hk by eauto.
      apply table_domain in Hk. lia.
    + destruct (Z.leb_spec 0x1200 c), (Z.leb_spec c 0x137F); cbn [andb]; try reflexivity. lia.
  - rewrite Hc, Hd. cbn [andb].
    unfold isLeadSurrogate, isTrailSurrogate in Hc, Hd.
    apply andb_true_iff in Hc, Hd. rewrite !Z.leb_le in Hc, Hd.
    set (cp := (c - 0xD800) * 0x400 + (d - 0xDC00) + 0x10000).
    assert (Hcp : 0x10000 <= cp) by (subst cp; lia).
    destruct (TRANSLIT_BASES !! cp) as [syl |] eqn:Hs.
    + assert (is_Some (TRANSLIT_BASES !! cp)) as Hk by eauto.
      apply table_domain in Hk. lia.
    + destruct (Z.leb_spec 0x1200 cp), (Z.leb_spec cp 0x137F); cbn [andb]; try reflexivity. lia.
Qed.

Lemma transliterate_segments (w : jsstring) :
  transliterate w = concat (map Spec.segment (stringIterator w)).
Proof. unfold transliterate. now rewrite transliterate_fold. Qed.

(** X1. Text without Ethiopic code units is transliterated to itself. *)
Theorem transliterate_plain_text (w : jsstring) :
  Forall (fun c => ~ Shape.ethiopic c) w -> transliterate w = w.
Proof.
  intros Hall. rewrite transliterate_segments.
  rewrite <- (stringIterator_concat w) at 2. f_equal.
  rewrite <- (stringIterator_concat w) in Hall.
  pose proof (stringIterator_characters w) as Hch.
  induction (stringIterator w) as [| ch chars IH]; [reflexivity |].
  cbn [concat] in Hall. apply Forall_app in Hall as [Hh Ht].
  inversion Hch; subst. cbn [map]. rewrite segment_plain by assumption.
  f_equal. now apply IH.
Qed.

Lemma segment_no_ethiopic (ch : jsstring) :
  Shape.isCharacter ch -> Forall (fun c => ~ Shape.ethiopic c) (Spec.segment ch).
Proof.
  unfold Shape.ethiopic. intros [[c ->] | (c & d & -> & Hc & Hd)]; unfold Spec.segment; cbn [codePointAt0].
  - destruct (TRANSLIT_BASES !! c) as [syl |] eqn:Hs.
    + eapply Forall_impl; [apply (syllable_ascii c syl Hs) |]. cbn. lia.
    + destruct (Z.leb_spec 0x1200 c), (Z.leb_spec c 0x137F); cbn [andb];
        repeat constructor; cbn; lia.
  - rewrite Hc, Hd. cbn [andb].
    unfold isLeadSurrogate, isTrailSurrogate in Hc, Hd.
    apply andb_true_iff in Hc, Hd. rewrite !Z.leb_le in Hc, Hd.
    set (cp := (c - 0xD800) * 0x400 + (d - 0xDC00) + 0x10000).
    assert (Hcp : 0x10000 <= cp) by (subst cp; lia).
    destruct (TRANSLIT_BASES !! cp) as [syl |] eqn:Hs.
    + eapply Forall_impl; [apply (syllable_ascii cp syl Hs) |]. cbn. lia.
    + destruct (Z.leb_spec 0x1200 cp), (Z.leb_spec cp 0x137F); cbn [andb];
        repeat constructor; lia.
Qed.

(** X2. No Ethiopic code unit is left in a transliteration. *)
Theorem transliterate_no_ethiopic_left (w : jsstring) :
  Forall (fun c => ~ Shape.ethiopic c) (transliterate w).
Proof.
  rewrite transliterate_segments.
  pose proof (stringIterator_characters w) as Hch.
  induction Hch as [| ch chars Hc _ IH]; cbn [map concat]; [constructor |].
  apply Forall_app. split; [now apply segment_no_ethiopic | exact IH].
Qed.

Lemma stringIterator_app (a b : jsstring) :
  Shape.startsClean b ->
  stringIterator (a ++ b) = stringIterator a ++ stringIterator b.
Proof.
  intros Hb.
  apply (stringIterator_cases
           (fun a chars => stringIterator (a ++ b) = chars ++ stringIterator b)).
  - reflexivity.
  - intros c. destruct b as [| d b']; [reflexivity |].
    cbn [app]. change (stringIterator (c :: d :: b'))
      with (if isLeadSurrogate c && isTrailSurrogate d
            then [c; d] :: stringIterator b'
            else [c] :: stringIterator (d :: b')).
    cbn in Hb. rewrite Hb, andb_false_r. reflexivity.
  - intros c d rest Hs IH. cbn [app].
    change (stringIterator (c :: d :: rest ++ b))
      with (if isLeadSurrogate c && isTrailSurrogate d
            then [c; d] :: stringIterator (rest ++ b)
            else [c] :: stringIterator (d :: rest ++ b)).
    now rewrite Hs, IH.
  - intros c d rest Hs IH. cbn [app] in *.
    change (stringIterator (c :: d :: rest ++ b))
      with (if isLeadSurrogate c && isTrailSurrogate d
            then [c; d] :: stringIterator (rest ++ b)
            else [c] :: stringIterator (d :: rest ++ b)).
    now rewrite Hs, IH.
Qed.

(** X3. A text can be transliterated piece by piece: the transliteration
    of two texts joined is the two transliterations joined, when the
    join does not bring a surrogate pair together. *)
Theorem transliterate_app (a b : jsstring) :
  Shape.startsClean b ->
  transliterate (a ++ b) = transliterate a ++ transliterate b.
Proof.
  intros Hb. rewrite !transliterate_segments, stringIterator_app by exact Hb.
  now rewrite map_app, concat_app.
Qed.

(** X4. The keys of the table are the code points 0x1200..0x134F and
    no others, and among the Ethiopic code points the placeholder
    stands exactly for those from 0x1350 on (punctuation, numerals). *)
Theorem placeholder_above_the_rows :
  (forall c, is_Some (TRANSLIT_BASES !! c) <-> 0x1200 <= c <= 0x134F) /\
  (forall c, Shape.ethiopic c ->
     (transliterate [c] = lit "?" <-> 0x1350 <= c)).
Proof.
  split; [exact table_domain |].
  unfold Shape.ethiopic. intros c Hc.
  rewrite transliterate_segments. cbn [stringIterator map concat].
  rewrite app_nil_r. unfold Spec.segment. cbn [codePointAt0].
  destruct (TRANSLIT_BASES !! c) as [syl |] eqn:Hs.
  - assert (is_Some (TRANSLIT_BASES !! c)) as Hk by eauto.
    apply table_domain in Hk. split; [| lia].
    intros ->. apply syllable_ascii in Hs. inversion Hs; subst. lia.
  - assert (~ is_Some (TRANSLIT_BASES !! c)) as Hk by (rewrite Hs; intros [? ?]; discriminate).
    rewrite table_domain in Hk.
    destruct (Z.leb_spec 0x1200 c), (Z.leb_spec c 0x137F); cbn [andb]; try lia.
    split; [lia | reflexivity].
Qed.

End TransliterationMore.

(** ** Glosses: properties *)

Section GlossFacts.

Import WordModal Gloss.

Lemma trimStart_Forall (P : Z -> Prop) (s : jsstring) :
  Forall P s -> Forall P (trimStart s).
Proof.
  induction 1 as [| c s Hc Hs IH]; cbn; [constructor |].
  destruct (isWhiteSpace c); [exact IH | now constructor].
Qed.

Lemma trim_Forall (P : Z -> Prop) (s : jsstring) :
  Forall P s -> Forall P (trim s).
Proof.
  intros H. unfold trim, trimEnd.
  apply List.Forall_rev, trimStart_Forall, List.Forall_rev, trimStart_Forall, H.
Qed.

Lemma firstPhrase_plain (s : jsstring) :
  Forall (fun c => c <> 44 /\ c <> 59) (firstPhrase s).
Proof.
  induction s as [| c s IH]; cbn; [constructor |].
  destruct (c =? 44) eqn:H1; [constructor |].
  destruct (c =? 59) eqn:H2; [constructor |]. cbn.
  apply Z.eqb_neq in H1, H2. now constructor.
Qed.

Lemma firstPhrase_id (s : jsstring) :
  Forall (fun c => c <> 44 /\ c <> 59) s -> firstPhrase s = s.
Proof.
  induction 1 as [| c s [H1 H2] _ IH]; cbn; [reflexivity |].
  apply Z.eqb_neq in H1, H2. rewrite H1, H2. cbn. now rewrite IH.
Qed.

Lemma markers_long : Forall (fun m : jsstring => (0 < length m)%nat) markers.
Proof. unfold markers. repeat constructor; cbn; lia. Qed.

Lemma stripMarker_shorter (s s' : jsstring) :
  stripMarker s = Some s' -> (length s' < length s)%nat.
Proof.
  unfold stripMarker.
  destruct (find (startsWith s) markers) as [m |] eqn:Hf; [| discriminate].
  apply find_some in Hf as [Hin Hm]. intros [= <-].
  apply startsWith_spec in Hm as [b ->].
  pose proof markers_long as Hl. rewrite List.Forall_forall in Hl.
  specialize (Hl m Hin). rewrite drop_app_length, length_app. lia.
Qed.

Lemma stripMarkers_done (fuel : nat) (s : jsstring) :
  (length s <= fuel)%nat -> stripMarker (stripMarkers fuel s) = None.
Proof.
  revert s. induction fuel as [| fuel IH]; intros s Hn; cbn [stripMarkers].
  - destruct s; [reflexivity | cbn in Hn; lia].
  - destruct (stripMarker s) as [s' |] eqn:Hs; [| exact Hs].
    apply IH. apply stripMarker_shorter in Hs. lia.
Qed.

Lemma stripMarkers_suffix (fuel : nat) (s : jsstring) :
  exists stripped, s = stripped ++ stripMarkers fuel s.
Proof.
  revert s. induction fuel as [| fuel IH]; intros s; cbn [stripMarkers].
  - now exists [].
  - destruct (stripMarker s) as [s' |] eqn:Hs; [| now exists []].
    unfold stripMarker in Hs.
    destruct (find (startsWith s) markers) as [m |] eqn:Hf; [| discriminate].
    apply find_some in Hf as [_ Hm]. injection Hs as <-.
    apply startsWith_spec in Hm as [b ->]. rewrite drop_app_length.
    destruct (IH b) as [stripped Hb]. exists (m ++ stripped).
    rewrite <- app_assoc. now rewrite <- Hb.
Qed.

(** X5. The pattern of [truncateGloss] removes every marker the
    definition starts with: what is left is the end of the definition
    and starts with none of them. *)
Theorem stripPrefixMarkers_all (def : jsstring) :
  stripMarker (stripPrefixMarkers def) = None /\
  exists stripped, def = stripped ++ stripPrefixMarkers def.
Proof.
  unfold stripPrefixMarkers. split.
  - now apply stripMarkers_done.
  - apply stripMarkers_suffix.
Qed.

Lemma truncateGloss_shape (def : jsstring) :
  truncateGloss def <> [] /\
  (length (truncateGloss def) <= 25)%nat /\
  Forall (fun c => c <> 44 /\ c <> 59) (truncateGloss def).
Proof.
  unfold truncateGloss.
  destruct (truthy def); cbn [negb];
    [| split; [discriminate | split; [cbn; lia | repeat constructor; cbn; lia]]].
  set (clean := trim (firstPhrase (stripPrefixMarkers def))).
  assert (Hplain : Forall (fun c => c <> 44 /\ c <> 59) clean)
    by apply trim_Forall, firstPhrase_plain.
  destruct (25 <? length clean)%nat eqn:Hlen.
  - apply Nat.ltb_lt in Hlen.
    assert (Ht : length (take 22 clean) = 22%nat) by (rewrite length_take; lia).
    assert (Htr : truthy (take 22 clean ++ lit "...") = true)
      by (destruct (take 22 clean); reflexivity).
    rewrite Htr. split; [| split].
    + destruct (take 22 clean); discriminate.
    + rewrite length_app, Ht. cbn. lia.
    + apply Forall_app. split; [now apply Forall_take | repeat constructor; cbn; lia].
  - apply Nat.ltb_ge in Hlen. destruct clean as [| c t] eqn:Hc; cbn [truthy].
    + split; [discriminate | split; [cbn; lia | repeat constructor; cbn; lia]].
    + split; [discriminate | split; [exact Hlen | exact Hplain]].
Qed.

(** X6. A gloss is never empty, has at most 25 code units, and holds
    neither comma nor semicolon. *)
Theorem truncateGloss_bounds (def : jsstring) :
  truncateGloss def <> [] /\
  (length (truncateGloss def) <= 25)%nat /\
  Forall (fun c => c <> 44 /\ c <> 59) (truncateGloss def).
Proof. apply truncateGloss_shape. Qed.

(** X7. A definition that is already a gloss is kept as it is: not
    empty, at most 25 code units, no marker in front, no comma or
    semicolon, no blank at either end. *)
Theorem truncateGloss_keeps_gloss (def : jsstring) :
  def <> [] ->
  (length def <= 25)%nat ->
  stripMarker def = None ->
  Forall (fun c => c <> 44 /\ c <> 59) def ->
  trim def = def ->
  truncateGloss def = def.
Proof.
  intros Hne Hlen Hm Hplain Htrim. unfold truncateGloss, stripPrefixMarkers.
  destruct def as [| c t]; [congruence |]. cbn [truthy negb].
  assert (Hs : stripMarkers (length (c :: t)) (c :: t) = c :: t)
    by (cbn [length stripMarkers]; now rewrite Hm).
  rewrite Hs, firstPhrase_id by exact Hplain. rewrite Htrim.
  replace (25 <? length (c :: t))%nat with false by (symmetry; apply Nat.ltb_ge; lia).
  reflexivity.
Qed.

Lemma truncateGlossValue_bounds (v : Value) (g : jsstring) :
  truncateGlossValue v = Some g -> g <> [] /\ (length g <= 25)%nat.
Proof.
  assert (Hdash : forall o : option jsstring,
            (if false then None else Some (lit "---")) = o -> o = Some g ->
            g <> [] /\ (length g <= 25)%nat).
  { intros o <- [= <-]. split; [discriminate | cbn; lia]. }
  destruct v as [| | b | n | d | l]; unfold truncateGlossValue; cbn [toBoolean].
  - now apply Hdash.
  - now apply Hdash.
  - destruct b; [discriminate | now apply Hdash].
  - destruct (negb (n =? 0)); [discriminate | now apply Hdash].
  - intros [= <-]. pose proof (truncateGloss_shape d) as (H1 & H2 & _). auto.
  - discriminate.
Qed.

Lemma entryOf_cases (store : option (gmap jsstring nat)) (w : jsstring) :
  entryOf store w =
  d ← store;
  match d !! w with
  | Some l => Some (At l)
  | None => if bool_decide (w ∈ objectPrototypeKeys) then Some (Builtin w) else None
  end.
Proof. destruct store; reflexivity. Qed.

Lemma entryOf_answers (store : option (gmap jsstring nat)) (w : jsstring) :
  ~ Store.answers store w -> entryOf store w = None.
Proof.
  intros Hno. rewrite entryOf_cases. destruct store as [d |]; [| reflexivity].
  cbn [mbind option_bind].
  destruct (d !! w) as [l |] eqn:Hl; [destruct Hno; exists d; eauto |].
  case_bool_decide as Hk; [destruct Hno; exists d; eauto | reflexivity].
Qed.

(** X8. [getWordGloss] looks in [geezDefs] first and in [wordData] only
    for a word [geezDefs] does not answer to.  The gloss is cut from
    the [definition] of the entry found, or else from its [english]; a
    word neither store answers to gets the dashes, and so does a word
    whose entry in [geezDefs] has neither, whatever [wordData] holds for
    it (there is no fall through, unlike [getWordTranslit]), and a word
    that is only the name of a property [geezDefs] inherits.  A gloss it
    returns is never empty and has at most 25 code units. *)
Theorem getWordGloss_sources (s : Session) (w : jsstring) :
  (~ Store.answers (geezDefs s) w -> ~ Store.answers (wordData s) w ->
     getWordGloss s w = Some (lit "---")) /\
  (forall d l, geezDefs s = Some d -> d !! w = Some l ->
     getWordGloss s w =
       truncateGlossValue
         (orValue (getProp s l (lit "definition"))
                  (orValue (getProp s l (lit "english")) (VString []))) /\
     (toBoolean (getProp s l (lit "definition")) = false ->
      toBoolean (getProp s l (lit "english")) = false ->
      getWordGloss s w = Some (lit "---"))) /\
  (forall d l, ~ Store.answers (geezDefs s) w ->
     wordData s = Some d -> d !! w = Some l ->
     getWordGloss s w =
       truncateGlossValue
         (orValue (getProp s l (lit "definition"))
                  (orValue (getProp s l (lit "english")) (VString [])))) /\
  (forall d, geezDefs s = Some d -> d !! w = None -> w ∈ objectPrototypeKeys ->
     getWordGloss s w = Some (lit "---")) /\
  (forall g, getWordGloss s w = Some g -> g <> [] /\ (length g <= 25)%nat).
Proof.
  unfold getWordGloss. split; [| split; [| split; [| split]]].
  - intros Hg Hw. now rewrite (entryOf_answers _ _ Hg), (entryOf_answers _ _ Hw).
  - intros d l Hd Hl. rewrite entryOf_cases, Hd. cbn [mbind option_bind].
    rewrite Hl. unfold glossSource. cbn [propOf]. split; [reflexivity |].
    intros Hdef Heng. unfold orValue. now rewrite Hdef, Heng.
  - intros d l Hg Hd Hl. rewrite (entryOf_answers _ _ Hg).
    rewrite entryOf_cases, Hd. cbn [mbind option_bind]. now rewrite Hl.
  - intros d Hd Hl Hk. rewrite entryOf_cases, Hd. cbn [mbind option_bind].
    rewrite Hl. now rewrite bool_decide_eq_true_2.
  - intros g.
    destruct (entryOf (geezDefs s) w); [apply truncateGlossValue_bounds |].
    destruct (entryOf (wordData s) w); [apply truncateGlossValue_bounds |].
    intros [= <-]. split; [discriminate | cbn; lia].
Qed.

End GlossFacts.

(** ** The analysis of a Fidel character: properties *)

Section FidelFacts.

Import Fidel.

Lemma inRow_spec (cp : Z) (info : Consonant) :
  inRow (Some cp) info = true <-> base info <= cp <= base info + 7.
Proof. unfold inRow. rewrite andb_true_iff, Z.leb_le, Z.ltb_lt. lia. Qed.

Lemma analysisIn_ok (ch : jsstring) (cp : Z) (info : Consonant) :
  base info <= cp <= base info + 7 ->
  exists a,
    analysisIn ch cp info = Some a /\
    char a = ch /\ consonant a = name info /\ translit a = info_translit info /\
    order a = Z.min (cp - base info + 1) 7 /\
    fullTranslit a =
      info_translit info ++
      (if cp - base info =? 7 then lit "wa"
       else from_option label [] (GEEZ_VOWEL_ORDERS (cp - base info + 1))) /\
    (orderName a = lit "labiovelar" <-> cp - base info = 7).
Proof.
  intros Hcp. unfold analysisIn.
  assert (Hk : cp - base info = 0 \/ cp - base info = 1 \/ cp - base info = 2 \/
               cp - base info = 3 \/ cp - base info = 4 \/ cp - base info = 5 \/
               cp - base info = 6 \/ cp - base info = 7) by lia.
  repeat (destruct Hk as [Hk | Hk]); rewrite Hk; cbn;
    (eexists; split; [reflexivity |]; cbn; repeat split; (discriminate || lia || auto)).
Qed.

Lemma consonant_names :
  Forall (fun entry : jsstring * Consonant =>
            name (snd entry) <> lit "Unknown" /\ 0x1200 <= base (snd entry) < 0xD000)
         GEEZ_CONSONANTS.
Proof. unfold GEEZ_CONSONANTS. repeat constructor; cbn; (discriminate || lia). Qed.

(** X9. [analyzeGeezChar] always returns an analysis, of the character
    it was given.  The order is 0 exactly when the consonant is
    Unknown, which is exactly when no row of the table holds the code
    point; otherwise it is between 1 and 7. *)
Theorem analyzeGeezChar_total (ch : jsstring) :
  exists a,
    analyzeGeezChar ch = Some a /\ char a = ch /\ 0 <= order a <= 7 /\
    (order a = 0 <-> consonant a = lit "Unknown") /\
    (order a = 0 <->
     find (fun entry => inRow (codePointAt0 ch) (snd entry)) GEEZ_CONSONANTS = None).
Proof.
  unfold analyzeGeezChar.
  destruct (find _ GEEZ_CONSONANTS) as [[key info] |] eqn:Hf.
  - apply find_some in Hf as [Hin Hrow]. cbn [snd] in Hrow.
    destruct (codePointAt0 ch) as [cp |]; [| discriminate].
    apply inRow_spec in Hrow.
    destruct (analysisIn_ok ch cp info Hrow) as (a & -> & Hc & Hn & _ & Ho & _).
    pose proof consonant_names as Hnames. rewrite List.Forall_forall in Hnames.
    destruct (Hnames _ Hin) as [Hname _]. cbn [snd] in Hname.
    exists a. split; [reflexivity |]. split; [exact Hc |].
    rewrite Ho, Hn. repeat split; try lia; try congruence; discriminate.
  - exists (unknownChar ch). cbn. repeat split; auto; lia.
Qed.

Lemma consonants_apart :
  forallb (fun e1 : jsstring * Consonant => forallb (fun e2 : jsstring * Consonant =>
     (7 <? Z.abs (base (snd e1) - base (snd e2))) ||
     bool_decide ((fst e1, name (snd e1), info_translit (snd e1), base (snd e1)) =
                  (fst e2, name (snd e2), info_translit (snd e2), base (snd e2))))
     GEEZ_CONSONANTS) GEEZ_CONSONANTS = true.
Proof. vm_compute. reflexivity. Qed.

(** X10. The character at offset k (0..7) of a row of the table is
    analysed as that row's consonant, with the order k+1 capped at 7,
    and its full transliteration is the row's followed by the label of
    the order, or by "wa" for the eighth form, which is named
    labiovelar. *)
Theorem analyzeGeezChar_row (key : jsstring) (info : Consonant) (k : Z) :
  In (key, info) GEEZ_CONSONANTS ->
  0 <= k <= 7 ->
  exists a,
    analyzeGeezChar [base info + k] = Some a /\
    consonant a = name info /\ translit a = info_translit info /\
    order a = Z.min (k + 1) 7 /\
    fullTranslit a =
      info_translit info ++
      (if k =? 7 then lit "wa" else from_option label [] (GEEZ_VOWEL_ORDERS (k + 1))) /\
    (orderName a = lit "labiovelar" <-> k = 7).
Proof.
  intros Hin Hk. unfold analyzeGeezChar. cbn [codePointAt0].
  destruct (find _ GEEZ_CONSONANTS) as [[key' info'] |] eqn:Hf.
  - apply find_some in Hf as [Hin' Hrow]. cbn [snd] in Hrow. apply inRow_spec in Hrow.
    pose proof consonants_apart as Hall.
    rewrite forallb_forall in Hall. specialize (Hall _ Hin).
    rewrite forallb_forall in Hall. specialize (Hall _ Hin'). cbn [snd] in Hall.
    apply orb_true_iff in Hall as [Hfar | Heq]; [apply Z.ltb_lt in Hfar; lia |].
    apply bool_decide_eq_true in Heq. injection Heq as _ En Et Eb.
    destruct (analysisIn_ok [base info + k] (base info + k) info' Hrow)
      as (a & -> & _ & Hn & Ht & Ho & Hfull & Hlab).
    rewrite <- Eb in Ho, Hfull, Hlab. rewrite <- En in Hn. rewrite <- Et in Ht, Hfull.
    replace (base info + k - base info) with k in * by lia.
    exists a. auto 7.
  - exfalso. pose proof (find_none _ _ Hf _ Hin) as Hno. cbn [snd] in Hno.
    assert (inRow (Some (base info + k)) info = true) by (apply inRow_spec; lia).
    congruence.
Qed.

End FidelFacts.

(** ** The utilities of the query engine: properties *)

Section UtilityFacts.

Import Search.
Variable toLowerCase : jsstring -> jsstring.
Variable canonicalize : Z -> Z.

Lemma escapeChar_cases (c : Z) :
  (c = 38 /\ escapeChar c = lit "&amp;") \/
  (c = 60 /\ escapeChar c = lit "&lt;") \/
  (c = 62 /\ escapeChar c = lit "&gt;") \/
  (c = 160 /\ escapeChar c = lit "&nbsp;") \/
  (c <> 38 /\ c <> 60 /\ c <> 62 /\ c <> 160 /\ escapeChar c = [c]).
Proof.
  unfold escapeChar.
  destruct (Z.eqb_spec c 38); [auto |].
  destruct (Z.eqb_spec c 60); [auto |].
  destruct (Z.eqb_spec c 62); [auto 6 |].
  destruct (Z.eqb_spec c 160); [auto 6 |]. auto 10.
Qed.

(** X11. What [escapeHtml] returns holds no [<] and no [>], nor a
    no-break space; text without [&], [<], [>] and no-break space is
    returned as it is. *)
Theorem escapeHtml_no_markup (text : jsstring) :
  Forall (fun c => c <> 60 /\ c <> 62 /\ c <> 160) (escapeHtml text) /\
  (Forall (fun c => c <> 38 /\ c <> 60 /\ c <> 62 /\ c <> 160) text ->
   escapeHtml text = text).
Proof.
  unfold escapeHtml. split.
  - induction text as [| c text IH]; cbn [flat_map]; [constructor |].
    apply Forall_app. split; [| exact IH].
    destruct (escapeChar_cases c) as [[_ ->] | [[_ ->] | [[_ ->] | [[_ ->] | (? & ? & ? & ? & ->)]]]];
      repeat constructor; cbn; lia.
  - induction 1 as [| c text (? & ? & ? & ?) _ IH]; cbn [flat_map]; [reflexivity |].
    destruct (escapeChar_cases c) as [[? _] | [[? _] | [[? _] | [[? _] | (_ & _ & _ & _ & ->)]]]];
      try lia. cbn [app]. now rewrite IH.
Qed.

Lemma escapeChar_inj (a b : Z) (x y : jsstring) :
  escapeChar a ++ x = escapeChar b ++ y -> a = b /\ x = y.
Proof.
  destruct (escapeChar_cases a) as [[-> ->] | [[-> ->] | [[-> ->] | [[-> ->] | (? & ? & ? & ? & ->)]]]];
    destruct (escapeChar_cases b) as [[-> ->] | [[-> ->] | [[-> ->] | [[-> ->] | (? & ? & ? & ? & ->)]]]];
    cbn; intros Heq; try discriminate;
    injection Heq; intros; subst; try (split; reflexivity);
    exfalso;
    match goal with
    | H : ?a <> ?b |- _ => solve [apply H; reflexivity]
    end.
Qed.

(** X12. Escaping loses nothing: two texts with the same escaped form
    are the same text. *)
Theorem escapeHtml_injective (a b : jsstring) :
  escapeHtml a = escapeHtml b -> a = b.
Proof.
  unfold escapeHtml. revert b.
  induction a as [| c a IH]; intros [| d b]; cbn [flat_map]; intros Heq.
  - reflexivity.
  - exfalso. destruct (escapeChar_cases d) as [[_ H] | [[_ H] | [[_ H] | [[_ H] | (_ & _ & _ & _ & H)]]]];
      rewrite H in Heq; discriminate.
  - exfalso. destruct (escapeChar_cases c) as [[_ H] | [[_ H] | [[_ H] | [[_ H] | (_ & _ & _ & _ & H)]]]];
      rewrite H in Heq; discriminate.
  - apply escapeChar_inj in Heq as [-> Heq]. f_equal. now apply IH.
Qed.

Lemma patternAtoms_escape (query : jsstring) :
  patternAtoms (escapeRegExp query) = query.
Proof.
  unfold escapeRegExp. induction query as [| c query IH]; [reflexivity |].
  cbn [flat_map]. destruct (isRegexMeta c) eqn:Hm.
  - cbn [app patternAtoms Z.eqb Pos.eqb]. now rewrite IH.
  - cbn [app patternAtoms].
    destruct (Z.eqb_spec c 92) as [-> | _]; [discriminate | now rewrite IH].
Qed.

Lemma isRegexMeta_syntax (c : Z) : isRegexMeta c = isSyntaxCharacter c.
Proof.
  unfold isRegexMeta, isSyntaxCharacter.
  repeat match goal with
         | |- context [c =? ?n] =>
             destruct (Z.eqb_spec c n) as [-> | ?]; [reflexivity |]
         end.
  reflexivity.
Qed.

Lemma literalPattern_atoms (pattern text : jsstring) :
  literalPattern pattern = Some text -> patternAtoms pattern = text.
Proof.
  remember (length pattern) as n eqn:Hn. revert pattern text Hn.
  induction (lt_wf n) as [n _ IH]. intros pattern text Hn.
  destruct pattern as [| c rest]; [intros [= <-]; reflexivity |].
  cbn [literalPattern patternAtoms]. destruct (c =? 92).
  - destruct rest as [| d rest']; [discriminate |].
    destruct (isSyntaxCharacter d); [| discriminate].
    destruct (literalPattern rest') as [t |] eqn:Ht; [| discriminate].
    intros [= <-]. f_equal. apply (IH (length rest')); [subst n; cbn; lia | reflexivity | exact Ht].
  - destruct (isSyntaxCharacter c); [discriminate |].
    destruct (literalPattern rest) as [t |] eqn:Ht; [| discriminate].
    intros [= <-]. f_equal. apply (IH (length rest)); [subst n; cbn; lia | reflexivity | exact Ht].
Qed.

Lemma literalPattern_escape (query : jsstring) :
  literalPattern (escapeRegExp query) = Some query.
Proof.
  unfold escapeRegExp. induction query as [| c query IH]; [reflexivity |].
  cbn [flat_map]. destruct (isRegexMeta c) eqn:Hm.
  - cbn [app literalPattern Z.eqb Pos.eqb].
    rewrite <- isRegexMeta_syntax, Hm, IH. reflexivity.
  - cbn [app literalPattern].
    destruct (Z.eqb_spec c 92) as [-> | _]; [discriminate |].
    rewrite <- isRegexMeta_syntax, Hm, IH. reflexivity.
Qed.

(** X13. The pattern [highlightMatch] builds is, by the grammar of
    patterns, a run of literal characters that spells the query: the
    class of the escape holds exactly the syntax characters, each of
    them is escaped, and nothing else is.  The atoms the replacement
    works with are therefore the query itself. *)
Theorem escapeRegExp_literal (query : jsstring) :
  literalPattern (escapeRegExp query) = Some query /\
  patternAtoms (escapeRegExp query) = query /\
  (forall c, isRegexMeta c = isSyntaxCharacter c) /\
  (forall c, isSyntaxCharacter c = true -> literalPattern [c] = None) /\
  (Forall (fun c => isRegexMeta c = false) query -> escapeRegExp query = query).
Proof.
  split; [apply literalPattern_escape |]. split; [apply patternAtoms_escape |].
  split; [apply isRegexMeta_syntax |]. split.
  - intros c Hc. cbn [literalPattern]. rewrite Hc. now destruct (c =? 92).
  - unfold escapeRegExp. induction 1 as [| c query Hc _ IH]; [reflexivity |].
    cbn [flat_map]. now rewrite Hc, IH.
Qed.

Lemma matchesAt_take (atoms text : jsstring) :
  matchesAt canonicalize atoms text = true ->
  length (take (length atoms) text) = length atoms /\
  matchesAt canonicalize atoms (take (length atoms) text) = true.
Proof.
  revert text. induction atoms as [| a atoms IH]; intros text; cbn.
  - intros _. rewrite take_0. auto.
  - destruct text as [| t text]; [discriminate |].
    rewrite andb_true_iff. intros [Ha Hrest]. destruct (IH text Hrest) as [Hl Hm].
    cbn. rewrite Ha, Hm, Hl. auto.
Qed.

Lemma replaceMatches_pieces (fuel : nat) (atoms text : jsstring) :
  exists pieces : list (bool * jsstring),
    replaceMatches canonicalize fuel atoms text = concat (map Shape.renderPiece pieces) /\
    concat (map snd pieces) = text /\
    Forall (fun p => fst p = true ->
                     length (snd p) = length atoms /\
                     matchesAt canonicalize atoms (snd p) = true) pieces.
Proof.
  revert text. induction fuel as [| fuel IH]; intros text; cbn [replaceMatches].
  - exists [(false, text)].
    split; [cbn; now rewrite app_nil_r |]. split; [cbn; now rewrite app_nil_r |].
    constructor; [discriminate | constructor].
  - destruct text as [| c rest];
      [exists []; split; [reflexivity |]; split; [reflexivity | constructor] |].
    destruct (matchesAt canonicalize atoms (c :: rest)) eqn:Hm.
    + destruct (IH (drop (length atoms) (c :: rest))) as (ps & Hr & Hc & Hall).
      exists ((true, take (length atoms) (c :: rest)) :: ps).
      cbn [map concat fst snd Shape.renderPiece]. rewrite Hr, Hc, take_drop.
      split; [now rewrite <- !app_assoc |]. split; [reflexivity |].
      constructor; [| exact Hall]. intros _. now apply matchesAt_take.
    + destruct (IH rest) as (ps & Hr & Hc & Hall).
      exists ((false, [c]) :: ps).
      cbn [map concat fst snd Shape.renderPiece app]. rewrite Hr, Hc.
      split; [reflexivity |]. split; [reflexivity |].
      constructor; [discriminate | exact Hall].
Qed.

Lemma replaceMatches_none (fuel : nat) (atoms text : jsstring) :
  (forall i, matchesAt canonicalize atoms (drop i text) = false) ->
  replaceMatches canonicalize fuel atoms text = text.
Proof.
  revert text. induction fuel as [| fuel IH]; intros text Hno; [reflexivity |].
  cbn [replaceMatches]. destruct text as [| c rest]; [reflexivity |].
  rewrite (Hno 0%nat : matchesAt canonicalize atoms (c :: rest) = false).
  f_equal. apply IH. intros i. exact (Hno (S i)).
Qed.

(** X14. Highlighting only adds markers: the result is the text cut in
    pieces, some of them wrapped in the two markers, and every wrapped
    piece has the length of the query and is equal to it up to case.
    A text in which the query occurs nowhere, and any text for an empty
    query, is returned as it is. *)
Theorem highlightMatch_pieces (text query : jsstring) :
  (exists pieces : list (bool * jsstring),
     highlightMatch canonicalize text query = concat (map Shape.renderPiece pieces) /\
     concat (map snd pieces) = text /\
     Forall (fun p => fst p = true ->
                      length (snd p) = length query /\
                      matchesAt canonicalize query (snd p) = true) pieces) /\
  ((forall i, matchesAt canonicalize query (drop i text) = false) ->
   highlightMatch canonicalize text query = text) /\
  highlightMatch canonicalize text [] = text.
Proof.
  unfold highlightMatch. split; [| split; [| reflexivity]].
  - destruct (truthy query); cbn [negb].
    + rewrite patternAtoms_escape. apply replaceMatches_pieces.
    + exists [(false, text)].
      split; [cbn; now rewrite app_nil_r |]. split; [cbn; now rewrite app_nil_r |].
      constructor; [discriminate | constructor].
  - intros Hno. destruct (truthy query); cbn [negb]; [| reflexivity].
    rewrite patternAtoms_escape. now apply replaceMatches_none.
Qed.

Lemma beforeColon_chapter (chapter rest : jsstring) :
  Forall (fun c => c <> 58) chapter ->
  beforeColon (chapter ++ 58 :: rest) = chapter /\
  replaceColon (chapter ++ 58 :: rest) = chapter ++ 45 :: rest /\
  beforeColon chapter = chapter /\ replaceColon chapter = chapter.
Proof.
  induction 1 as [| c chapter Hc _ (IH1 & IH2 & IH3 & IH4)]; cbn; [auto |].
  apply Z.eqb_neq in Hc. rewrite Hc, IH1, IH2, IH3, IH4. auto.
Qed.

(** X15. The link of a verse: for the reference "chapter:verse" it is
    the page of the chapter with the anchor v, chapter, dash, verse
    (only the first colon counts); a reference without colon is used
    whole, as page and as anchor. *)
Theorem verseHref_chapter_verse (chapterBase chapter verse : jsstring) :
  Forall (fun c => c <> 58) chapter ->
  verseHref chapterBase (chapter ++ lit ":" ++ verse) =
    chapterBase ++ chapter ++ lit ".html#v" ++ chapter ++ lit "-" ++ verse /\
  verseHref chapterBase chapter =
    chapterBase ++ chapter ++ lit ".html#v" ++ chapter.
Proof.
  intros Hc. unfold verseHref. change (lit ":" ++ verse) with (58 :: verse).
  destruct (beforeColon_chapter chapter verse Hc) as (-> & -> & -> & ->).
  split; reflexivity.
Qed.

(** X16. The locations of a word are the references of the verses
    that have it among their words, one per verse and in the order of
    the verses; a word no verse has gets none. *)
Theorem locationsOf_verses (index : SearchIndex) (geez : jsstring) :
  locationsOf index geez =
    map ref (List.filter (fun v => bool_decide (geez ∈ verseWords v)) (verses index)) /\
  (forall r, In r (locationsOf index geez) <->
             exists v, In v (verses index) /\ ref v = r /\ In geez (verseWords v)) /\
  (Forall (fun v => ~ In geez (verseWords v)) (verses index) ->
   locationsOf index geez = []).
Proof.
  assert (Heq : locationsOf index geez =
    map ref (List.filter (fun v => bool_decide (geez ∈ verseWords v)) (verses index))).
  { unfold locationsOf.
    rewrite (fold_left_push
               (fun v => if bool_decide (geez ∈ verseWords v) then Some (ref v) else None)).
    - cbn [app]. induction (verses index) as [| v vs IH]; [reflexivity |].
      cbn. destruct (bool_decide _); cbn; now rewrite IH.
    - intros acc v. destruct (bool_decide _); cbn; [reflexivity | now rewrite app_nil_r]. }
  split; [exact Heq |]. split.
  - intros r. rewrite Heq, in_map_iff. split.
    + intros (v & Hr & Hv). apply filter_In in Hv as [Hin Hw].
      apply bool_decide_eq_true in Hw. apply list_elem_of_In in Hw. eauto.
    + intros (v & Hin & Hr & Hw). exists v. split; [exact Hr |].
      apply filter_In. split; [exact Hin |].
      apply bool_decide_eq_true. now apply list_elem_of_In.
  - intros Hnone. rewrite Heq. clear Heq.
    induction Hnone as [| v vs Hv _ IH]; [reflexivity |]. cbn.
    rewrite bool_decide_eq_false_2; [exact IH |].
    intros Hw. apply Hv. now apply list_elem_of_In.
Qed.

End UtilityFacts.

(** ** The query engine: further properties *)

Section EngineFacts.

Import Search.
Variable toLowerCase : jsstring -> jsstring.
Variable canonicalize : Z -> Z.

Lemma loadSearchIndex_cached (env : Env) (s : Session) (i : SearchIndex) :
  searchIndex s = Some i -> loadSearchIndex env s = (Returned (Some i), s).
Proof.
  intros Hs. unfold loadSearchIndex, bind, getIndex. now rewrite Hs.
Qed.

Lemma onSearchInput_cached (env : Env) (value : jsstring) (s : Session)
    (i : SearchIndex) :
  searchIndex s = Some i ->
  exists res,
    onSearchInput toLowerCase canonicalize env value s = (Returned res, s) /\
    outcome res <> IndexUnavailable.
Proof.
  intros Hs. unfold onSearchInput.
  destruct (Nat.lt_ge_cases (length (trim value)) 2) as [Hshort | Hlong].
  - rewrite performSearch_short by exact Hshort. eexists. split; [reflexivity | discriminate].
  - rewrite performSearch_long by exact Hlong.
    rewrite (loadSearchIndex_cached env s i Hs).
    eexists. split; [reflexivity | discriminate].
Qed.

(** X17. The index is acquired once: when the session has it, a load
    returns it in any environment without a request, and any run of
    queries leaves the session as it is, requests included; none of
    them ends in the unavailable result. *)
Theorem index_loaded_once (s : Session) (i : SearchIndex) :
  searchIndex s = Some i ->
  (forall env, loadSearchIndex env s = (Returned (Some i), s)) /\
  (forall queries,
     snd (Spec.runQueries toLowerCase canonicalize queries s) = s /\
     Forall (fun r => exists res, r = Returned res /\ outcome res <> IndexUnavailable)
            (fst (Spec.runQueries toLowerCase canonicalize queries s))).
Proof.
  intros Hs. split; [intros env; now apply loadSearchIndex_cached |].
  induction queries as [| [env value] queries [IH1 IH2]]; cbn [Spec.runQueries].
  - split; [reflexivity | constructor].
  - destruct (onSearchInput_cached env value s i Hs) as (res & -> & Hres).
    destruct (Spec.runQueries toLowerCase canonicalize queries s) as [rs s''].
    cbn [fst snd] in *. split; [exact IH1 |]. constructor; [eauto | exact IH2].
Qed.

(** X18. A load that finds the index document and a lexicon builds the
    index from the verses of the one and the entries of the other,
    keeps it in the session and logs no error.  It asks for the index
    document and, only when word-modal.js has no [wordData], for
    words.json. *)
Theorem load_builds_index (env : Env) (s : Session) (doc : IndexData)
    (lex : Lexicon) :
  searchIndex s = None ->
  search_index_json env = Some doc ->
  Acquisition.lexiconOf env = Some lex ->
  let i := {| verses := data_verses doc; words := lex;
              stats := (verse_count doc, word_count doc, chapter_count doc) |} in
  loadSearchIndex env s =
    (Returned (Some i),
     {| searchIndex := Some i;
        requests := requests s ++ Acquisition.loadRequests env;
        errorsLogged := errorsLogged s |}).
Proof.
  intros Hs Hdoc Hlex i.
  unfold loadSearchIndex, bind, getIndex, tryCatch, fetchJson, setIndex, ret,
    Acquisition.lexiconOf, Acquisition.loadRequests in *.
  rewrite Hs, Hdoc. cbn.
  destruct (wordData env) as [w |].
  - injection Hlex as ->. cbn. reflexivity.
  - rewrite Hlex. cbn. now rewrite <- app_assoc.
Qed.

(** X19. The search is blind to case the way [toLowerCase] is: two
    Latin queries with the same lower-case form find the same words and
    the same verses. *)
Theorem search_ignores_case (env : Env) (value1 value2 : jsstring)
    (s s' : Session) (index : SearchIndex) :
  (2 <= length (trim value1))%nat ->
  (2 <= length (trim value2))%nat ->
  isGeezQuery (trim value1) = false ->
  isGeezQuery (trim value2) = false ->
  toLowerCase (trim value1) = toLowerCase (trim value2) ->
  loadSearchIndex env s = (Returned (Some index), s') ->
  exists wm vm gm1 gm2 page1 page2,
    onSearchInput toLowerCase canonicalize env value1 s =
      (Returned {| outcome := Searched wm vm gm1; html := page1 |}, s') /\
    onSearchInput toLowerCase canonicalize env value2 s =
      (Returned {| outcome := Searched wm vm gm2; html := page2 |}, s').
Proof.
  intros Hl1 Hl2 Hg1 Hg2 Hq Hload.
  rewrite (onSearchInput_long toLowerCase canonicalize env value1 s s' index Hl1 Hload).
  rewrite (onSearchInput_long toLowerCase canonicalize env value2 s s' index Hl2 Hload).
  rewrite Hg1, Hg2, !searchWords_latin, !searchVerses_latin, Hq.
  do 6 eexists. split; reflexivity.
Qed.

Lemma geez_not_digits (query : jsstring) :
  isGeezQuery query = true -> allDigits query = false.
Proof.
  unfold isGeezQuery, allDigits. rewrite existsb_exists. intros (c & Hin & Hc).
  apply andb_true_iff in Hc. rewrite !Z.leb_le in Hc.
  destruct (forallb isDigit query) eqn:Hd; [| apply andb_false_r].
  rewrite forallb_forall in Hd. specialize (Hd c Hin).
  unfold isDigit in Hd. apply andb_true_iff in Hd. rewrite !Z.leb_le in Hd. lia.
Qed.

(** X20. A script-native query can only find words: it has no verse
    match and no gematria match, a query in digits being Latin. *)
Theorem geez_query_finds_words_only (env : Env) (value : jsstring)
    (s s' : Session) (index : SearchIndex) :
  (2 <= length (trim value))%nat ->
  isGeezQuery (trim value) = true ->
  loadSearchIndex env s = (Returned (Some index), s') ->
  allDigits (trim value) = false /\
  exists wm page,
    onSearchInput toLowerCase canonicalize env value s =
      (Returned {| outcome := Searched wm [] []; html := page |}, s').
Proof.
  intros Hlen Hg Hload. split; [now apply geez_not_digits |].
  rewrite (onSearchInput_long toLowerCase canonicalize env value s s' index Hlen Hload).
  rewrite Hg, searchGematria_digits, (geez_not_digits _ Hg).
  do 2 eexists. reflexivity.
Qed.

End EngineFacts.

(** ** The definition stores: further properties *)

Section StoreFacts.

Import WordModal.

Lemma setProp_heap (l : nat) (k : jsstring) (v : Value) (s : Session) :
  heap (snd (setProp l k v s)) = <[l := <[k := v]> (objectAt s l)]> (heap s) /\
  geezDefs (snd (setProp l k v s)) = geezDefs s /\
  wordData (snd (setProp l k v s)) = wordData s.
Proof. auto. Qed.

(** X21. The object [lookupDefinition] returns for an exact match is
    the stored entry itself: a property the caller writes to it is read
    back from the store, and the next lookup returns the same object.
    For a word that is no key, the object returned is either the
    built-in every object inherits under that name, the word being such
    a name, or the caller's own: it is new, and writing to it changes
    no object that existed before the lookup. *)
Theorem lookupDefinition_aliasing (geez k : jsstring) (v : Value) (s : Session)
    (defs : gmap jsstring nat) :
  geezDefs s = Some defs ->
  (forall l, defs !! geez = Some l -> (l < length (heap s))%nat ->
     lookupDefinition geez s = (Some (At l), s) /\
     getProp (snd (setProp l k v s)) l k = v /\
     lookupDefinition geez (snd (setProp l k v s)) =
       (Some (At l), snd (setProp l k v s))) /\
  (defs !! geez = None ->
   forall r s1, lookupDefinition geez s = (Some r, s1) ->
     ((geez ∈ objectPrototypeKeys) /\ r = Builtin geez /\ s1 = s) \/
     ((geez ∉ objectPrototypeKeys) /\ r = At (length (heap s)) /\
      heap s1 !! length (heap s) <> None /\
      forall l o, heap s !! l = Some o ->
        heap (snd (setProp (length (heap s)) k v s1)) !! l = Some o)).
Proof.
  intros Hd. split.
  - intros l Hl Hlen.
    assert (Hfirst : lookupDefinition geez s = (Some (At l), s))
      by (rewrite lookupDefinition_spec, Hd, (readKey_own _ _ _ Hl); reflexivity).
    split; [exact Hfirst |]. split.
    + unfold getProp. unfold objectAt at 1.
      destruct (setProp_heap l k v s) as (-> & _ & _).
      rewrite (list_lookup_insert_eq (heap s) l _ Hlen). unfold default, id.
      now rewrite lookup_insert_eq.
    + rewrite lookupDefinition_spec.
      destruct (setProp_heap l k v s) as (_ & -> & _).
      now rewrite Hd, (readKey_own _ _ _ Hl).
  - intros Hnone r s1. rewrite lookupDefinition_spec, Hd, readKey_cases, Hnone.
    case_bool_decide as Hk.
    + intros [= <- <-]. left. auto.
    + destruct (Spec.variantKey geez ≫= readKey defs) as [r' |]; [| discriminate].
      intros [= <- <-]. right. split; [exact Hk |]. split; [reflexivity |]. split.
      * cbn [heap]. now rewrite snoc_lookup_last.
      * intros l' o Hl'.
        match goal with
        | |- context [setProp ?a ?k ?v ?s1] =>
            destruct (setProp_heap a k v s1) as (-> & _ & _)
        end.
        cbn [heap]. rewrite list_lookup_insert_ne.
        -- now apply lookup_app_l_Some.
        -- apply lookup_lt_Some in Hl'. lia.
Qed.

Lemma lookupDefinition_heap (geez : jsstring) (s : Session) :
  geezDefs (snd (lookupDefinition geez s)) = geezDefs s /\
  wordData (snd (lookupDefinition geez s)) = wordData s /\
  exists more, heap (snd (lookupDefinition geez s)) = heap s ++ more.
Proof.
  rewrite lookupDefinition_spec.
  destruct (geezDefs s) as [defs |] eqn:Hd;
    [| repeat split; auto; exists []; now rewrite app_nil_r].
  destruct (readKey defs geez);
    [repeat split; auto; exists []; now rewrite app_nil_r |].
  destruct (Spec.variantKey geez ≫= readKey defs);
    [| repeat split; auto; exists []; now rewrite app_nil_r].
  cbn [snd heap geezDefs wordData]. repeat split; auto. eauto.
Qed.

Lemma storedTranslit_grow (s s' : Session) (store : option (gmap jsstring nat))
    (w : jsstring) (more : list Obj) :
  Store.allocated s store -> heap s' = heap s ++ more ->
  storedTranslit s' store w = storedTranslit s store w.
Proof.
  intros Hal Hh. unfold storedTranslit.
  destruct store as [d |]; [| reflexivity]. rewrite readKey_cases.
  destruct (d !! w) as [l |] eqn:Hl; [| destruct (bool_decide _); reflexivity].
  unfold propOf, getProp, objectAt. rewrite Hh.
  rewrite lookup_app_l by (eapply Hal; eauto). reflexivity.
Qed.

(** X22. In a session whose stores point into the heap, a lookup of a
    definition changes no transliteration: [getWordTranslit] returns
    for every word what it returned before, and the stores still point
    into the heap. *)
Theorem lookupDefinition_keeps_translit (geez : jsstring) (s : Session) :
  Store.wellFormed s ->
  Store.wellFormed (snd (lookupDefinition geez s)) /\
  forall w, getWordTranslit (snd (lookupDefinition geez s)) w = getWordTranslit s w.
Proof.
  intros [Hg Hw].
  destruct (lookupDefinition_heap geez s) as (Eg & Ew & more & Eh).
  split.
  - unfold Store.wellFormed, Store.allocated. rewrite Eg, Ew, Eh, length_app.
    split; intros d w l Hs Hl; [specialize (Hg d w l Hs Hl) | specialize (Hw d w l Hs Hl)]; lia.
  - intros w. unfold getWordTranslit. rewrite Eg, Ew.
    rewrite (storedTranslit_grow s _ (geezDefs s) w more Hg Eh).
    rewrite (storedTranslit_grow s _ (wordData s) w more Hw Eh).
    reflexivity.
Qed.

End StoreFacts.

(** ** The load of the definitions: properties *)

Section LoaderFacts.

Import Loader.

Lemma loadGeezDefinitions_asks (response : Response) (s : State) :
  WordModal.toBoolean (geezDefs s) = false ->
  (forall doc, response = Body doc -> WordModal.toBoolean doc = false) ->
  requests (snd (loadGeezDefinitions response s)) = S (requests s) /\
  WordModal.toBoolean (geezDefs (snd (loadGeezDefinitions response s))) = false.
Proof.
  intros Hs Hdoc. unfold loadGeezDefinitions. rewrite Hs, andb_false_r.
  destruct response as [| | | doc]; cbn; auto.
  destruct (hasKeys doc); cbn; auto.
Qed.

(** X23. [loadGeezDefinitions] keeps what it has when the load fails
    (rejected request, response not ok, body that does not parse): the
    definitions and the loaded flag are as before, and the definitions
    it had are what it returns.  A body that parses is stored, returned
    and sets the loaded flag whatever it is: [null] too, which takes the
    place of the definitions held, with a warning for the entries that
    cannot be counted.  Once the flag is set over a truthy document no
    call sends a request, whatever the responses would be; as long as
    no truthy document has arrived every call sends one, the flag
    notwithstanding. *)
Theorem loadGeezDefinitions_keeps (s : State) :
  (forall response : Response,
     (forall doc, response <> Body doc) ->
     fst (loadGeezDefinitions response s) = geezDefs s /\
     geezDefs (snd (loadGeezDefinitions response s)) = geezDefs s /\
     defsLoaded (snd (loadGeezDefinitions response s)) = defsLoaded s) /\
  (forall doc,
     defsLoaded s && WordModal.toBoolean (geezDefs s) = false ->
     doc <> WordModal.VNull -> doc <> WordModal.VUndefined ->
     loadGeezDefinitions (Body doc) s =
       (doc,
        {| geezDefs := doc; defsLoaded := true; requests := S (requests s);
           warnings := warnings s; logs := S (logs s) |})) /\
  (defsLoaded s && WordModal.toBoolean (geezDefs s) = false ->
   loadGeezDefinitions (Body WordModal.VNull) s =
     (WordModal.VNull,
      {| geezDefs := WordModal.VNull; defsLoaded := true;
         requests := S (requests s); warnings := S (warnings s);
         logs := logs s |})) /\
  (defsLoaded s = true -> WordModal.toBoolean (geezDefs s) = true ->
   forall responses : list Response, loadAll responses s = s) /\
  (WordModal.toBoolean (geezDefs s) = false ->
   forall responses : list Response,
     Forall (fun response =>
               forall doc, response = Body doc -> WordModal.toBoolean doc = false)
            responses ->
     requests (loadAll responses s) = (requests s + length responses)%nat).
Proof.
  split; [| split; [| split; [| split]]].
  - intros response Hfail. unfold loadGeezDefinitions.
    destruct (defsLoaded s && WordModal.toBoolean (geezDefs s)); [auto |].
    destruct response; cbn; auto. now destruct (Hfail doc).
  - intros doc Hl Hnull Hundef. unfold loadGeezDefinitions. rewrite Hl.
    destruct doc; try reflexivity; congruence.
  - intros Hl. unfold loadGeezDefinitions. now rewrite Hl.
  - intros Hl Hd responses. unfold loadAll.
    induction responses as [| r rs IH]; [reflexivity |]. cbn [fold_left].
    assert (Hs : snd (loadGeezDefinitions r s) = s)
      by (unfold loadGeezDefinitions; now rewrite Hl, Hd).
    now rewrite Hs.
  - intros Hs responses. revert s Hs. unfold loadAll.
    induction responses as [| r rs IH]; intros s Hs Hall; cbn [fold_left length].
    + lia.
    + inversion Hall as [| ? ? Hr Hrest]; subst.
      destruct (loadGeezDefinitions_asks r s Hs Hr) as [Hreq Hfalsy].
      rewrite (IH _ Hfalsy Hrest), Hreq. lia.
Qed.

(** A body of [null] on the first call: the flag is set without
    definitions, one warning is logged, and the next call asks again. *)
Example loadGeezDefinitions_null_body :
  let fresh := {| geezDefs := WordModal.VNull; defsLoaded := false;
                  requests := 0; warnings := 0; logs := 0 |} in
  loadGeezDefinitions (Body WordModal.VNull) fresh =
    (WordModal.VNull,
     {| geezDefs := WordModal.VNull; defsLoaded := true;
        requests := 1; warnings := 1; logs := 0 |}) /\
  requests (loadAll [Body WordModal.VNull; NotOk] fresh) = 2%nat.
Proof. split; reflexivity. Qed.

End LoaderFacts.

(** ** Words and their transliterations: what is always shown *)

Section ShownFacts.

Import Interlinear WordModal.

Lemma segment_nonempty (ch : jsstring) : ch <> [] -> Spec.segment ch <> [].
Proof.
  intros Hch. unfold Spec.segment.
  destruct (codePointAt0 ch) as [cp |]; [| exact Hch].
  destruct (TRANSLIT_BASES !! cp) as [syl |] eqn:Hs.
  - apply TRANSLIT_BASES_truthy in Hs. destruct syl; [discriminate | discriminate].
  - destruct (_ && _); [discriminate | exact Hch].
Qed.

Lemma transliterate_nil (w : jsstring) : transliterate w = [] -> w = [].
Proof.
  rewrite transliterate_segments.
  pose proof (stringIterator_characters w) as Hch.
  pose proof (stringIterator_concat w) as Hw.
  destruct (stringIterator w) as [| ch chars]; [intros _; now rewrite <- Hw |].
  cbn [map concat]. intros Heq. apply app_eq_nil in Heq as [Heq _].
  exfalso. revert Heq. apply segment_nonempty.
  inversion Hch as [| ? ? [[c ->] | (c & d & -> & _)] _]; discriminate.
Qed.

(** X24. Only the empty word has an empty transliteration. *)
Theorem transliterate_nonempty (w : jsstring) :
  transliterate w = [] <-> w = [].
Proof. split; [apply transliterate_nil | intros ->; reflexivity]. Qed.

(** X25. A word that is not empty is never shown without a
    transliteration: what [getWordTranslit] returns for it is truthy,
    whatever the stores hold. *)
Theorem getWordTranslit_truthy (s : Session) (w : jsstring) :
  w <> [] -> toBoolean (getWordTranslit s w) = true.
Proof.
  intros Hw. rewrite getWordTranslit_first. unfold Spec.firstNonEmpty.
  destruct (find Spec.supplies (Spec.providers s w)) as [p |] eqn:Hf.
  - apply find_some in Hf as [_ Hp]. destruct p as [v |]; [exact Hp | discriminate].
  - cbn [default toBoolean from_option].
    destruct (transliterate w) eqn:Ht; [| reflexivity].
    apply transliterate_nil in Ht. contradiction.
Qed.

End ShownFacts.

Section LeadingZero.

Import Search.
Variable toLowerCase : jsstring -> jsstring.
Variable canonicalize : Z -> Z.

Lemma decimalValue_leading_zero (ds : jsstring) :
  decimalValue (48 :: ds) = decimalValue ds.
Proof. reflexivity. Qed.

Lemma toDouble_exact (g : Z) : g < 2 ^ 53 -> toDouble g = Finite g.
Proof.
  intros Hg. unfold toDouble.
  now replace (g <? 2 ^ 53) with true by (symmetry; apply Z.ltb_lt; exact Hg).
Qed.

(** X26. Zeros in front of a number do not count: the decimal string
    of g with a zero before it finds every entry of gematria g, for
    0 <= g < 2^53, the gematria of one digit included. *)
Theorem gematria_leading_zero (env : Env) (s s' : Session) (index : SearchIndex)
    (g : Z) (entry : jsstring * LexiconEntry) :
  loadSearchIndex env s = (Returned (Some index), s') ->
  0 <= g < 2 ^ 53 ->
  In entry (words index) ->
  gematria (snd entry) = Some g ->
  exists wm vm gm page,
    onSearchInput toLowerCase canonicalize env (lit "0" ++ numberToString g) s =
      (Returned {| outcome := Searched wm vm gm; html := page |}, s') /\
    In {| gm_geez := fst entry; gm_data := snd entry |} gm.
Proof.
  intros Hload Hg Hin Hgem.
  destruct (numberToString_spec g ltac:(lia)) as (Hne & Hdig & Hval & _).
  assert (Hdig0 : forallb isDigit (lit "0" ++ numberToString g) = true)
    by (cbn [lit app forallb]; now rewrite Hdig).
  pose proof (trim_digits _ Hdig0) as Htrim.
  assert (Hlen : (2 <= length (trim (lit "0" ++ numberToString g)))%nat).
  { rewrite Htrim. cbn. destruct (numberToString g); [congruence | cbn; lia]. }
  rewrite (onSearchInput_long toLowerCase canonicalize env _ s s' index Hlen Hload).
  do 4 eexists. split; [reflexivity |].
  rewrite searchGematria_digits, Htrim. unfold allDigits. rewrite Hdig0.
  cbn [lit app truthy andb]. unfold parseInt.
  rewrite decimalValue_leading_zero, Hval, toDouble_exact by lia.
  rewrite <- list_elem_of_In, list_elem_of_omap. exists entry.
  split; [now apply list_elem_of_In |].
  unfold Spec.gematriaMatch. rewrite Hgem. now rewrite bool_decide_eq_true_2.
Qed.

End LeadingZero.

(** ** The further properties on the examples *)

Section MoreInstances.

Import Search.

Local Abbreviation run := (onSearchInput asciiToLowerCase asciiCanonicalize).

(** X1 on a text of letters, blank, digits and a colon. *)
Lemma transliterate_plain_text_witness :
  Forall (fun c => ~ Shape.ethiopic c) (lit "ha 1:2") /\
  Interlinear.transliterate (lit "ha 1:2") = lit "ha 1:2".
Proof.
  assert (H : Forall (fun c => ~ Shape.ethiopic c) (lit "ha 1:2"))
    by (cbn; repeat (constructor; [unfold Shape.ethiopic; lia |]); constructor).
  split; [exact H | exact (transliterate_plain_text _ H)].
Defined.

(** X3 on the word of the example, cut after its first character. *)
Lemma transliterate_app_witness :
  Shape.startsClean [0x120B; 0x121D] /\
  Interlinear.transliterate ([0x1230] ++ [0x120B; 0x121D]) =
    Interlinear.transliterate [0x1230] ++ Interlinear.transliterate [0x120B; 0x121D].
Proof.
  assert (H : Shape.startsClean [0x120B; 0x121D]) by reflexivity.
  split; [exact H | exact (transliterate_app [0x1230] _ H)].
Defined.

(** X7 on the definition "peace". *)
Lemma truncateGloss_keeps_gloss_witness :
  Gloss.truncateGloss (lit "peace") = lit "peace".
Proof.
  apply truncateGloss_keeps_gloss.
  - discriminate.
  - vm_compute. lia.
  - reflexivity.
  - cbn. repeat (constructor; [lia |]). constructor.
  - reflexivity.
Defined.

(** X10 on the eighth form of the row Lawe, U+120F. *)
Lemma analyzeGeezChar_row_witness :
  exists a,
    Fidel.analyzeGeezChar [0x1208 + 7] = Some a /\
    Fidel.consonant a = lit "Lawe" /\ Fidel.order a = 7 /\
    Fidel.fullTranslit a = lit "lwa".
Proof.
  destruct (analyzeGeezChar_row [0x1208]
              {| Fidel.name := lit "Lawe"; Fidel.info_translit := lit "l";
                 Fidel.base := 0x1208 |} 7)
    as (a & Ha & Hc & _ & Ho & Hf & _).
  - right. left. reflexivity.
  - lia.
  - exists a. auto.
Defined.

(** X12 on a text with markup. *)
Lemma escapeHtml_injective_witness :
  escapeHtml (lit "a<b") = escapeHtml [97; 60; 98] /\ lit "a<b" = [97; 60; 98].
Proof.
  split; [reflexivity | apply escapeHtml_injective; reflexivity].
Defined.

(** X15 on the reference 12:3 from the index page. *)
Lemma verseHref_chapter_verse_witness :
  Forall (fun c => c <> 58) (lit "12") /\
  verseHref (lit "1_enoch/") (lit "12:3") = lit "1_enoch/12.html#v12-3".
Proof.
  assert (H : Forall (fun c => c <> 58) (lit "12"))
    by (cbn; repeat (constructor; [lia |]); constructor).
  split; [exact H |].
  exact (proj1 (verseHref_chapter_verse (lit "1_enoch/") (lit "12") (lit "3") H)).
Defined.

(** X17 on the loaded session, with the requests failing from then on. *)
Lemma index_loaded_once_witness :
  searchIndex Sample.loaded = Some Sample.index /\
  loadSearchIndex Sample.offline Sample.loaded =
    (Returned (Some Sample.index), Sample.loaded) /\
  snd (Spec.runQueries asciiToLowerCase asciiCanonicalize
         [(Sample.offline, lit "peace"); (Sample.offline, lit "135")] Sample.loaded) =
    Sample.loaded.
Proof.
  destruct (index_loaded_once asciiToLowerCase asciiCanonicalize
              Sample.loaded Sample.index eq_refl) as [Hload Hrun].
  split; [reflexivity |]. split; [apply Hload | apply Hrun].
Defined.

(** X18 on the example: both documents are requested. *)
Lemma load_builds_index_witness :
  searchIndex Sample.fresh = None /\
  Acquisition.lexiconOf Sample.env = Some Sample.lexicon /\
  loadSearchIndex Sample.env Sample.fresh = (Returned (Some Sample.index), Sample.loaded).
Proof.
  split; [reflexivity |]. split; [reflexivity |].
  exact (load_builds_index Sample.env Sample.fresh _ Sample.lexicon
           eq_refl eq_refl eq_refl).
Defined.

(** X19 on "PEACE" and "peace". *)
Lemma search_ignores_case_witness :
  asciiToLowerCase (trim (lit " PEACE")) = asciiToLowerCase (trim (lit "peace ")) /\
  exists wm vm gm1 gm2 page1 page2,
    run Sample.env (lit " PEACE") Sample.fresh =
      (Returned {| outcome := Searched wm vm gm1; html := page1 |}, Sample.loaded) /\
    run Sample.env (lit "peace ") Sample.fresh =
      (Returned {| outcome := Searched wm vm gm2; html := page2 |}, Sample.loaded).
Proof.
  split; [reflexivity |].
  apply (search_ignores_case asciiToLowerCase asciiCanonicalize Sample.env
           (lit " PEACE") (lit "peace ") Sample.fresh Sample.loaded Sample.index);
    try reflexivity; try (vm_compute; lia).
Defined.

(** X20 on two characters of the word of the example. *)
Lemma geez_query_finds_words_only_witness :
  isGeezQuery (trim [0x120B; 0x121D]) = true /\
  exists wm page,
    run Sample.env [0x120B; 0x121D] Sample.fresh =
      (Returned {| outcome := Searched wm [] []; html := page |}, Sample.loaded).
Proof.
  split; [reflexivity |].
  apply (geez_query_finds_words_only asciiToLowerCase asciiCanonicalize Sample.env
           [0x120B; 0x121D] Sample.fresh Sample.loaded Sample.index);
    try reflexivity; try (vm_compute; lia).
Defined.

(** X26 on the word of gematria 7, found by "07". *)
Lemma gematria_leading_zero_witness :
  exists wm vm gm page,
    run Sample.env (lit "0" ++ numberToString 7) Sample.fresh =
      (Returned {| outcome := Searched wm vm gm; html := page |}, Sample.loaded) /\
    In {| gm_geez := Sample.ze; gm_data := Sample.this |} gm.
Proof.
  apply (gematria_leading_zero asciiToLowerCase asciiCanonicalize Sample.env
           Sample.fresh Sample.loaded Sample.index 7 (Sample.ze, Sample.this)).
  - reflexivity.
  - lia.
  - right. left. reflexivity.
  - reflexivity.
Defined.

End MoreInstances.

Section StoreInstances.

Import WordModal.

Lemma defsSession_wellFormed : Store.wellFormed Sample.defsSession.
Proof.
  split; intros d w l Hs Hl; [| discriminate].
  injection Hs as <-. apply lookup_singleton_Some in Hl as [_ <-]. cbn. lia.
Defined.

(** X21 on the store of the example: a note written to the entry
    returned for the word is read back from the store. *)
Lemma lookupDefinition_aliasing_witness :
  geezDefs Sample.defsSession = Some {[ Sample.selam := 0%nat ]} /\
  getProp (snd (setProp 0%nat (lit "note") (VBool true) Sample.defsSession))
          0%nat (lit "note") = VBool true.
Proof.
  split; [reflexivity |].
  destruct (lookupDefinition_aliasing Sample.selam (lit "note") (VBool true)
              Sample.defsSession {[ Sample.selam := 0%nat ]} eq_refl) as [Hexact _].
  destruct (Hexact 0%nat) as (_ & Hread & _).
  - reflexivity.
  - cbn. lia.
  - exact Hread.
Defined.

(** X22 on the store of the example, after the lookup of a variant. *)
Lemma lookupDefinition_keeps_translit_witness :
  Store.wellFormed Sample.defsSession /\
  getWordTranslit (snd (lookupDefinition (Sample.selam ++ [0x1275]) Sample.defsSession))
                  Sample.selam =
    getWordTranslit Sample.defsSession Sample.selam.
Proof.
  split; [exact defsSession_wellFormed |].
  apply (lookupDefinition_keeps_translit _ _ defsSession_wellFormed).
Defined.

(** X25 on a word no store has. *)
Lemma getWordTranslit_truthy_witness :
  [0x1200; 32] <> [] /\
  toBoolean (getWordTranslit Sample.defsSession [0x1200; 32]) = true.
Proof.
  assert (H : [0x1200; 32] <> []) by discriminate.
  split; [exact H | exact (getWordTranslit_truthy Sample.defsSession _ H)].
Defined.

End StoreInstances.
